(** * Electronic Actor Enhancement Controller

    A shallow embedding of
    [examples/electronicActorEnhancementController/main.py]
    (PicoFeatherWingDuo) and the properties its specification states about
    the lighting effects ([Dimmer], [Flicker]) and the two-state controller
    ([StateMachine], [AmbientState], [TriggeredState]).

    Conventions of the embedding.
    - The program is CircuitPython.  CircuitPython (like MicroPython) does
      not mangle [__name] attributes, so [self.__dim] and [self.__pwmout]
      written in [Effect.__init__] are the very attributes the subclasses
      read; each class is one record with one field per attribute.
    - Python integers are unbounded: they are [Z], with [>>], [<<], [&],
      [^] as [Z.shiftr], [Z.shiftl], [Z.land], [Z.lxor].
    - Hardware and the clock are an explicit state [Hw]: every assignment to
      [pwmout.duty_cycle], every [i2s.play]/[i2s.stop] and every [print]
      appends an [Event] to a trace; [time.monotonic_ns()] consumes the next
      reading of a clock oracle and counts the read.
    - Exceptions are the [Raise] result.  Nothing in main.py catches an
      exception raised under [StateMachine.update], so a fault ends the
      program and no state is returned with it.
    - Two float expressions feed integer state.  The gamma table entries
      are a parameter of [Dimmer.__init__].  The strobe half period divides
      two ints into a float, in the float format of the interpreter: a
      field of [Hw], which module [Float] interprets. *)

From Stdlib Require Import ZArith QArith Qround Lia List String DecimalString.
From Stdlib Require Import SpecFloat.
From stdpp Require Import base option list gmap strings.

Open Scope Z_scope.

(** ** Constants of the module *)

Definition TESTING : bool := true.
Definition TRIGGER_DURATION : Q := 5%Q.
Definition NANOSECONDS_PER_SECOND : Z := 1000000000.

(** ** Faults, results, and the state-and-error monad *)

(** The Python exceptions the modelled code can raise.  [NoObject] is not a
    Python exception: it marks a reference that is not in the heap of state
    objects, which no run of the program produces. *)
Inductive Fault : Type :=
| KeyError (key : string)
| IndexError
| ValueError
| AttributeError (attr : string)
| NoObject (r : nat).

Inductive Res (A : Type) : Type :=
| Ok (a : A)
| Raise (f : Fault).
Arguments Ok {A} a.
Arguments Raise {A} f.

Definition M (S A : Type) : Type := S -> Res (A * S).

Definition ret {S A} (a : A) : M S A := fun s => Ok (a, s).

Definition bind {S A B} (m : M S A) (k : A -> M S B) : M S B :=
  fun s => match m s with
           | Ok (a, s') => k a s'
           | Raise f => Raise f
           end.

Definition raise {S A} (f : Fault) : M S A := fun _ => Raise f.

Notation "x <- m ;; k" := (bind m (fun x => k))
  (at level 100, m at next level, right associativity).
Notation "m ;; k" := (bind m (fun _ => k))
  (at level 100, right associativity).

(** ** Floating point

    [a / b] on two ints is a float division: both operands are converted
    to the interpreter's float format and divided there, rounding to
    nearest even.  CircuitPython floats are single precision; a build that
    keeps floats inside the object word (object representation C, 30-bit
    floats) clears the two low bits of the significand when it stores the
    quotient.  A format is given by its precision, its exponent bound and
    the number of low significand bits a stored float loses; the arithmetic
    is the Standard Library's [SpecFloat].  A float is carried as the
    rational number it denotes. *)
Module Float.

Record format : Type := mk {
  prec : Z;
  emax : Z;
  dropped : Z
}.

(** IEEE binary32, the 30-bit floats of object representation C, and
    IEEE binary64 (CPython's). *)
Definition single : format := mk 24 128 0.
Definition single30 : format := mk 24 128 2.
Definition double : format := mk 53 1024 0.

(** The number a finite float denotes. *)
Definition value (x : spec_float) : Q :=
  match x with
  | S754_finite s m e =>
      let n := if s then Z.neg m else Z.pos m in
      match e with
      | Z.neg k => Qmake n (Pos.shiftl 1 (N.pos k))
      | _ => inject_Z (n * 2 ^ e)
      end
  | _ => 0%Q
  end.

(** The float nearest to an int. *)
Definition of_int (fmt : format) (z : Z) : spec_float :=
  binary_normalize (prec fmt) (emax fmt) z 0 false.

(** A float as an object keeps it: the [dropped] low bits of the
    significand are cleared. *)
Definition store (fmt : format) (x : spec_float) : spec_float :=
  match x with
  | S754_finite s m e =>
      match Z.shiftl (Z.shiftr (Z.pos m) (dropped fmt)) (dropped fmt) with
      | Z.pos m' => S754_finite s m' e
      | _ => S754_zero s
      end
  | _ => x
  end.

(** [a / b] on two ints, [b] not 0. *)
Definition true_divide (fmt : format) (a b : Z) : Q :=
  value (store fmt (SFdiv (prec fmt) (emax fmt) (of_int fmt a) (of_int fmt b))).

End Float.

(** ** Hardware *)

Inductive Event : Type :=
| PwmWrite (pin : nat) (duty_cycle : Z)
| I2sPlay (bus : nat) (wave : option string) (loop : bool)
| I2sStop (bus : nat)
| Stdout (line : string).

(** [monotonic_ns k] is what the [k]-th call of [time.monotonic_ns()]
    returns and [monotonic k] what the [k]-th call of [time.monotonic()]
    returns (seconds, a float in the source, a rational here; it is only
    ever stored).  [playing bus] is the [playing] property of an I2S bus and
    [fell] the [fell] property of the debounced trigger: both are owned by
    the drivers and only read by the controller.  [float] is the float
    format of the interpreter. *)
Record Hw : Type := mkHw {
  trace : list Event;
  ns_reads : nat;
  monotonic_ns : nat -> Z;
  s_reads : nat;
  monotonic : nat -> Q;
  playing : nat -> bool;
  fell : bool;
  float : Float.format
}.

(** The hardware after the events [es] happened. *)
Definition appended (es : list Event) (hw : Hw) : Hw :=
  mkHw (trace hw ++ es) (ns_reads hw) (monotonic_ns hw)
       (s_reads hw) (monotonic hw) (playing hw) (fell hw) (float hw).

Definition emit (e : Event) : M Hw unit :=
  fun hw => Ok (tt, appended [e] hw).

Definition time_monotonic_ns : M Hw Z :=
  fun hw => Ok (monotonic_ns hw (ns_reads hw),
                mkHw (trace hw) (S (ns_reads hw)) (monotonic_ns hw)
                     (s_reads hw) (monotonic hw) (playing hw) (fell hw)
                     (float hw)).

Definition time_monotonic : M Hw Q :=
  fun hw => Ok (monotonic hw (s_reads hw),
                mkHw (trace hw) (ns_reads hw) (monotonic_ns hw)
                     (S (s_reads hw)) (monotonic hw) (playing hw) (fell hw)
                     (float hw)).

Definition i2s_playing (bus : nat) : M Hw bool :=
  fun hw => Ok (playing hw bus, hw).

Definition trigger_fell : M Hw bool :=
  fun hw => Ok (fell hw, hw).

(** ** Support functions *)

Definition log (s : string) : M Hw unit :=
  if TESTING then emit (Stdout s) else ret tt.

Definition upscale (x : Z) : Z := Z.shiftl x 8 + x.

(** ['{0:d}'.format(n)] *)
Definition format_d (n : Z) : string := NilZero.string_of_int (Z.to_int n).

(** [l[i]] on a Python list: a negative index counts from the end, an index
    outside the list raises [IndexError]. *)
Definition py_index {S A} (l : list A) (i : Z) : M S A :=
  let j := if i <? 0 then Z.of_nat (length l) + i else i in
  if j <? 0 then raise IndexError
  else match l !! Z.to_nat j with
       | Some x => ret x
       | None => raise IndexError
       end.

(** [x >> n]: a negative shift count raises [ValueError]. *)
Definition py_rshift {S} (x n : Z) : M S Z :=
  if n <? 0 then raise ValueError else ret (Z.shiftr x n).

(** ** Effects *)

(** *** class Dimmer(Effect) *)

Module Dimmer.

Record t : Type := mk {
  pwmout : nat;
  dim : Z;
  strobe : Z;
  last_strobe : Z;
  transition_period : Z;
  last_transition_time : Z;
  next_transition : bool;
  linear_to_gamma : list Z;
  last_dim : option Z
}.

Definition with_last_dim (v : option Z) (d : t) : t :=
  mk (pwmout d) (dim d) (strobe d) (last_strobe d) (transition_period d)
     (last_transition_time d) (next_transition d) (linear_to_gamma d) v.

Definition with_last_transition_time (v : Z) (d : t) : t :=
  mk (pwmout d) (dim d) (strobe d) (last_strobe d) (transition_period d)
     v (next_transition d) (linear_to_gamma d) (last_dim d).

Definition with_next_transition (v : bool) (d : t) : t :=
  mk (pwmout d) (dim d) (strobe d) (last_strobe d) (transition_period d)
     (last_transition_time d) v (linear_to_gamma d) (last_dim d).

(** [__init__(self, pwmout, gamma=2.2)].  [gamma_entry i] stands for the
    float expression
    [int(((float(i) / float(max_in)) ** gamma) * max_out + 0.5)]
    of the constructor's [gamma]; the loop appends it for
    [i] in [range(max_in + 1)]. *)
Definition max_in : Z := 255.
Definition max_out : Z := 65535.

Definition __init__ (pwmout : nat) (gamma_entry : Z -> Z) : M Hw t :=
  let table := map (fun i => gamma_entry (Z.of_nat i))
                   (seq 0 (Z.to_nat (max_in + 1))) in
  emit (PwmWrite pwmout 0) ;;
  ret (mk pwmout 0 0 0 0 0 true table (Some 0)).

(** The [dim] setter. *)
Definition set_dim (value : Z) (d : t) : t :=
  let value := if value <? 0 then 0 else value in
  let value := if value >? 255 then 255 else value in
  mk (pwmout d) value (strobe d) (last_strobe d) (transition_period d)
     (last_transition_time d) (next_transition d) (linear_to_gamma d)
     (last_dim d).

(** [int((NANOSECONDS_PER_SECOND / frequency) // 2)] for a [frequency]
    above 0, as the setter calls it.  The quotient of the two ints is a
    float, the interpreter's.  [// 2] and [int] lose nothing more: half a
    float is a float, and so is its integer part. *)
Definition half_period (frequency : Z) : M Hw Z :=
  fun hw =>
    Ok (Qfloor (Float.true_divide (float hw) NANOSECONDS_PER_SECOND frequency
                / 2)%Q, hw).

(** The [strobe] setter. *)
Definition set_strobe (frequency : Z) (d : t) : M Hw t :=
  let frequency := if frequency <? 0 then 0 else frequency in
  let frequency := if frequency >? 1400 then 1400 else frequency in
  let d := mk (pwmout d) (dim d) frequency (strobe d) (transition_period d)
              (last_transition_time d) (next_transition d)
              (linear_to_gamma d) (last_dim d) in
  if frequency >? 0 then
    period <- half_period frequency ;;
    let d := mk (pwmout d) (dim d) (strobe d) (last_strobe d)
                period (last_transition_time d)
                (next_transition d) (linear_to_gamma d) (last_dim d) in
    log ("Strobe transition period: " ++ format_d (transition_period d)) ;;
    ret d
  else ret d.

Definition enter (d : t) : t :=
  with_last_dim None (with_next_transition true (with_last_transition_time 0 d)).

Definition exit (d : t) : t := d.

Definition update (now : option Z) (d : t) : M Hw t :=
  if strobe d =? 0 then
    (* constant *)
    if match last_dim d with
       | None => true
       | Some last => negb (last =? dim d)
       end
    then
      v <- py_index (linear_to_gamma d) (dim d) ;;
      emit (PwmWrite (pwmout d) v) ;;
      ret (with_last_dim (Some (dim d)) d)
    else ret d
  else
    (* strobing *)
    now <- match now with
           | None => time_monotonic_ns
           | Some now => ret now
           end ;;
    if now >=? last_transition_time d + transition_period d then
      let d := with_last_transition_time now d in
      (* transition between on/off *)
      d <- (if next_transition d then
              v <- py_index (linear_to_gamma d) (dim d) ;;
              emit (PwmWrite (pwmout d) v) ;;
              ret (with_last_dim (Some (dim d)) d)
            else
              emit (PwmWrite (pwmout d) 0) ;;
              ret (with_last_dim (Some 0) d)) ;;
      ret (with_next_transition (negb (next_transition d)) d)
    else ret d.

End Dimmer.

(** *** class Flicker(Effect)

    Candle flicker after cpldcpu's candleflicker.c. *)

Module Flicker.

Record t : Type := mk {
  pwmout : nat;
  dim : Z;
  rnd_lfsr : Z;
  last_flicker : Z;
  duty_cycle : Z
}.

(** [__init__(self, pwmout, seed)]: [Effect.__init__] sets [__pwmout] and
    [__dim = 0] and writes nothing to the sink. *)
Definition __init__ (pwmout : nat) (seed : Z) : t := mk pwmout 0 seed 0 0.

(** The [dim] setter. *)
Definition set_dim (value : Z) (f : t) : t :=
  let value := if value <? 0 then 0 else value in
  let value := if value >? 5 then 5 else value in
  mk (pwmout f) value (rnd_lfsr f) (last_flicker f) (duty_cycle f).

Definition _lfsr_step (rnd_lfsr : Z) : Z :=
  if negb (Z.land rnd_lfsr 1 =? 0) then Z.lxor (Z.shiftr rnd_lfsr 1) 0x822B
  else Z.shiftr rnd_lfsr 1.

(** [for i in range(n): rnd_lfsr = _lfsr_step(rnd_lfsr);
     if (rnd_lfsr & 0xff) > 128: break] *)
Fixpoint lfsr_loop (n : nat) (rnd_lfsr : Z) : Z :=
  match n with
  | O => rnd_lfsr
  | S n' =>
      let rnd_lfsr := _lfsr_step rnd_lfsr in
      if Z.land rnd_lfsr 0xff >? 128 then rnd_lfsr else lfsr_loop n' rnd_lfsr
  end.

(** Inherited from [Effect]. *)
Definition enter (f : t) : t := f.
Definition exit (f : t) : t := f.

(** [update] returns the object after the call and the value the call
    returns. *)
Definition update (now : option Z) (f : t) : M Hw (t * Z) :=
  now <- match now with
         | None => time_monotonic_ns
         | Some now => ret now
         end ;;
  if now >=? last_flicker f + 33333333 then
    if dim f =? 0 then
      (* off *)
      emit (PwmWrite (pwmout f) 0) ;;
      ret (f, 0)
    else
      let lowpass := duty_cycle f in
      let newval :=
        if negb (Z.land (rnd_lfsr f) 0x100 =? 0) then 255
        else Z.land (rnd_lfsr f) 255 in
      (* IIR filter with lag 2 *)
      let filtered := lowpass - Z.shiftr lowpass 1 + Z.shiftl newval 7 in
      (* dim duty_cycle: 1 is dimmest and 5 is brightest *)
      scaled <- py_rshift filtered (6 - dim f) ;;
      emit (PwmWrite (pwmout f) scaled) ;;
      ret (mk (pwmout f) (dim f) (lfsr_loop 3 (rnd_lfsr f)) now scaled, scaled)
  else ret (f, duty_cycle f).

End Flicker.

(** *** The effects a state owns *)

Module Effect.

Inductive t : Type :=
| EDimmer (d : Dimmer.t)
| EFlicker (f : Flicker.t).

Definition enter (e : t) : t :=
  match e with
  | EDimmer d => EDimmer (Dimmer.enter d)
  | EFlicker f => EFlicker (Flicker.enter f)
  end.

Definition exit (e : t) : t :=
  match e with
  | EDimmer d => EDimmer (Dimmer.exit d)
  | EFlicker f => EFlicker (Flicker.exit f)
  end.

(** [effect.update(now=now)]; the callers drop the returned value. *)
Definition update (now : option Z) (e : t) : M Hw t :=
  match e with
  | EDimmer d => d' <- Dimmer.update now d ;; ret (EDimmer d')
  | EFlicker f => r <- Flicker.update now f ;; ret (EFlicker (fst r))
  end.

(** [for effect in effects: effect.update(now=now)] *)
Fixpoint update_all (now : option Z) (effects : list t) : M Hw (list t) :=
  match effects with
  | [] => ret []
  | e :: rest =>
      e' <- update now e ;;
      rest' <- update_all now rest ;;
      ret (e' :: rest')
  end.

End Effect.

(** ** States *)

(** *** class State: the abstract parent *)

Module State.

Record t : Type := mk {
  effects : list Effect.t;
  i2s : option nat;
  wave : option string
}.

Definition __init__ : t := mk [] None None.

Definition with_effects (effects : list Effect.t) (s : t) : t :=
  mk effects (i2s s) (wave s).

Definition add_effect (effect : Effect.t) (s : t) : t :=
  with_effects (effects s ++ [effect]) s.

Definition set_i2s (value : nat) (s : t) : t :=
  mk (effects s) (Some value) (wave s).

Definition set_wave (value : string) (s : t) : t :=
  mk (effects s) (i2s s) (Some value).

Definition enter (s : t) : t := s.
Definition exit (s : t) : t := s.
Definition update (s : t) : bool := true.

End State.

(** An instance of one of the two concrete classes.  [trigger_finish_time]
    is the attribute [TriggeredState] adds. *)
Inductive ActorState : Type :=
| Ambient (s : State.t)
| Triggered (s : State.t) (trigger_finish_time : Q).

(** The [name] property. *)
Definition name (obj : ActorState) : string :=
  match obj with
  | Ambient _ => "ambient"
  | Triggered _ _ => "triggered"
  end.

Definition fields (obj : ActorState) : State.t :=
  match obj with
  | Ambient s => s
  | Triggered s _ => s
  end.

(** State objects are shared: the machine holds the active one both in
    [state] and under its name in [states], and a state's [update] runs
    while the machine holds it.  They live in a heap, and the machine
    keeps references. *)
Record World : Type := mkWorld {
  hw : Hw;
  heap : gmap nat ActorState
}.

Definition lift {A} (m : M Hw A) : M World A :=
  fun w => match m (hw w) with
           | Ok (a, hw') => Ok (a, mkWorld hw' (heap w))
           | Raise f => Raise f
           end.

Definition deref (r : nat) : M World ActorState :=
  fun w => match heap w !! r with
           | Some obj => Ok (obj, w)
           | None => Raise (NoObject r)
           end.

Definition store (r : nat) (obj : ActorState) : M World unit :=
  fun w => Ok (tt, mkWorld (hw w) (<[r := obj]> (heap w))).

(** Object creation: a reference no object has yet. *)
Definition new (obj : ActorState) : M World nat :=
  fun w => let r := fresh (dom (heap w)) in
           Ok (r, mkWorld (hw w) (<[r := obj]> (heap w))).

(** *** class AmbientState(State)

    [enter] and [exit] receive the machine and do not use it: they are
    functions of the object alone.  [update] calls back into the machine;
    it takes the machine's [go_to_state] as the method it looks up on the
    [machine] argument, and [self] as a reference together with the fields
    the object has when the call starts. *)

Module AmbientState.

Definition __init__ : ActorState := Ambient State.__init__.

Definition enter (s : State.t) : M Hw State.t :=
  match State.wave s with
  | Some w =>
      match State.i2s s with
      | Some bus => emit (I2sPlay bus (Some w) true)
      | None => raise (AttributeError "play")
      end
  | None => ret tt
  end ;;
  let s := State.enter s in
  ret (State.with_effects (map Effect.enter (State.effects s)) s).

Definition exit (s : State.t) : M Hw State.t :=
  match State.wave s with
  | Some _ =>
      match State.i2s s with
      | Some bus => emit (I2sStop bus)
      | None => raise (AttributeError "stop")
      end
  | None => ret tt
  end ;;
  let s := State.exit s in
  ret (State.with_effects (map Effect.exit (State.effects s)) s).

Definition update {Machine : Type}
    (go_to_state : string -> Machine -> M World Machine)
    (self : nat) (s : State.t) (machine : Machine) : M World Machine :=
  (if State.update s then
     now <- lift time_monotonic_ns ;;
     effects <- lift (Effect.update_all (Some now) (State.effects s)) ;;
     store self (Ambient (State.with_effects effects s))
   else ret tt) ;;
  fell <- lift trigger_fell ;;
  if fell then go_to_state "triggered" machine else ret machine.

End AmbientState.

(** *** class TriggeredState(State) *)

Module TriggeredState.

Definition __init__ : ActorState := Triggered State.__init__ 0%Q.

Definition enter (s : State.t) (trigger_finish_time : Q) : M Hw (State.t * Q) :=
  match State.i2s s with
  | Some bus => emit (I2sPlay bus (State.wave s) false)
  | None => raise (AttributeError "play")
  end ;;
  let s := State.enter s in
  let s := State.with_effects (map Effect.enter (State.effects s)) s in
  now <- time_monotonic ;;
  ret (s, (now + TRIGGER_DURATION)%Q).

Definition exit (s : State.t) : M Hw State.t :=
  let s := State.exit s in
  ret (State.with_effects (map Effect.exit (State.effects s)) s).

Definition update {Machine : Type}
    (go_to_state : string -> Machine -> M World Machine)
    (self : nat) (s : State.t) (trigger_finish_time : Q)
    (machine : Machine) : M World Machine :=
  (* triggered length based on audio length *)
  is_playing <- match State.i2s s with
                | Some bus => lift (i2s_playing bus)
                | None => raise (AttributeError "playing")
                end ;;
  if negb is_playing then go_to_state "ambient" machine
  else
    (if State.update s then
       now <- lift time_monotonic_ns ;;
       effects <- lift (Effect.update_all (Some now) (State.effects s)) ;;
       store self (Triggered (State.with_effects effects s) trigger_finish_time)
     else ret tt) ;;
    ret machine.

End TriggeredState.

(** ** class StateMachine *)

Module StateMachine.

Record t : Type := mk {
  state : option nat;
  states : gmap string nat
}.

Definition __init__ : t := mk None ∅.

(** [self.states[state.name] = state] *)
Definition add_state (r : nat) (m : t) : M World t :=
  obj <- deref r ;;
  ret (mk (state m) (<[name obj := r]> (states m))).

(** [self.state.exit(self)] and [self.state.enter(self)], dispatched on the
    class of the object. *)
Definition exit_state (r : nat) : M World unit :=
  obj <- deref r ;;
  lift (log ("Exiting " ++ name obj)) ;;
  match obj with
  | Ambient s => s' <- lift (AmbientState.exit s) ;; store r (Ambient s')
  | Triggered s tf => s' <- lift (TriggeredState.exit s) ;; store r (Triggered s' tf)
  end.

Definition enter_state (r : nat) : M World unit :=
  obj <- deref r ;;
  lift (log ("Entering " ++ name obj)) ;;
  match obj with
  | Ambient s => s' <- lift (AmbientState.enter s) ;; store r (Ambient s')
  | Triggered s tf =>
      r' <- lift (TriggeredState.enter s tf) ;;
      store r (Triggered (fst r') (snd r'))
  end.

Definition go_to_state (state_name : string) (m : t) : M World t :=
  match state m with
  | Some r => exit_state r
  | None => ret tt
  end ;;
  r <- match states m !! state_name with
       | Some r => ret r
       | None => raise (KeyError state_name)
       end ;;
  let m := mk (Some r) (states m) in
  enter_state r ;;
  ret m.

Definition update (m : t) : M World t :=
  match state m with
  | Some r =>
      obj <- deref r ;;
      match obj with
      | Ambient s => AmbientState.update go_to_state r s m
      | Triggered s tf => TriggeredState.update go_to_state r s tf m
      end
  | None => ret m
  end.

End StateMachine.

(** ** Objects the program can build, and test drivers *)

(** A [Dimmer] that exists: built by the constructor and then used through
    its setters and methods. *)
Inductive Dimmer_reach : Dimmer.t -> Prop :=
| DR_init pwmout gamma_entry hw d hw' :
    Dimmer.__init__ pwmout gamma_entry hw = Ok (d, hw') -> Dimmer_reach d
| DR_set_dim value d :
    Dimmer_reach d -> Dimmer_reach (Dimmer.set_dim value d)
| DR_set_strobe frequency d hw d' hw' :
    Dimmer_reach d -> Dimmer.set_strobe frequency d hw = Ok (d', hw') ->
    Dimmer_reach d'
| DR_enter d : Dimmer_reach d -> Dimmer_reach (Dimmer.enter d)
| DR_exit d : Dimmer_reach d -> Dimmer_reach (Dimmer.exit d)
| DR_update now d hw d' hw' :
    Dimmer_reach d -> Dimmer.update now d hw = Ok (d', hw') -> Dimmer_reach d'.

(** A [Flicker] that exists, built with the given seed. *)
Inductive Flicker_reach (seed : Z) : Flicker.t -> Prop :=
| FR_init pwmout : Flicker_reach seed (Flicker.__init__ pwmout seed)
| FR_set_dim value f :
    Flicker_reach seed f -> Flicker_reach seed (Flicker.set_dim value f)
| FR_enter f : Flicker_reach seed f -> Flicker_reach seed (Flicker.enter f)
| FR_exit f : Flicker_reach seed f -> Flicker_reach seed (Flicker.exit f)
| FR_update now f hw f' v hw' :
    Flicker_reach seed f -> Flicker.update now f hw = Ok ((f', v), hw') ->
    Flicker_reach seed f'.

Inductive Effect_reach : Effect.t -> Prop :=
| ER_dimmer d : Dimmer_reach d -> Effect_reach (Effect.EDimmer d)
| ER_flicker seed f : Flicker_reach seed f -> Effect_reach (Effect.EFlicker f).

(** What the setters guarantee about an effect's intensity and strobe. *)
Definition Effect_in_range (e : Effect.t) : Prop :=
  match e with
  | Effect.EDimmer d =>
      0 <= Dimmer.dim d <= 255 /\ 0 <= Dimmer.strobe d <= 1400
  | Effect.EFlicker f => 0 <= Flicker.dim f <= 5
  end.

(** [gamma d v]: the table entry the dimmer [d] holds for intensity [v]. *)
Definition gamma (d : Dimmer.t) (v : Z) : Z :=
  default 0 (Dimmer.linear_to_gamma d !! Z.to_nat v).

(** The LFSR states from which zero cannot be reached: nonzero and below
    2^16. *)
Definition lfsr_live (s : Z) : Prop := s <> 0 /\ s < 65536.

(** What the constructor and the setters establish for a [Dimmer]. *)
Definition Dimmer_inv (d : Dimmer.t) : Prop :=
  0 <= Dimmer.dim d <= 255 /\
  0 <= Dimmer.strobe d <= 1400 /\
  length (Dimmer.linear_to_gamma d) = 256%nat.

(** The dimmer after a strobe transition at [now]. *)
Definition toggled (now : Z) (d : Dimmer.t) : Dimmer.t :=
  Dimmer.mk (Dimmer.pwmout d) (Dimmer.dim d) (Dimmer.strobe d)
    (Dimmer.last_strobe d) (Dimmer.transition_period d) now
    (negb (Dimmer.next_transition d)) (Dimmer.linear_to_gamma d)
    (Some (if Dimmer.next_transition d then Dimmer.dim d else 0)).

(** The table index a dimmer's [update] uses is a valid one. *)
Definition gamma_index_in_bounds (e : Effect.t) : Prop :=
  match e with
  | Effect.EDimmer d =>
      0 <= Dimmer.dim d < Z.of_nat (length (Dimmer.linear_to_gamma d))
  | Effect.EFlicker _ => True
  end.

(** A test driver for the strobe: [update(now)] for each timestamp in turn,
    collecting the timestamps of the calls that wrote to the sink. *)
Fixpoint strobe_run (nows : list Z) (d : Dimmer.t) (hw : Hw)
  : Res (list Z * Dimmer.t * Hw) :=
  match nows with
  | [] => Ok ([], d, hw)
  | now :: rest =>
      match Dimmer.update (Some now) d hw with
      | Raise f => Raise f
      | Ok (d', hw') =>
          let wrote := negb (length (trace hw') =? length (trace hw))%nat in
          match strobe_run rest d' hw' with
          | Raise f => Raise f
          | Ok (ts, d'', hw'') =>
              Ok (if wrote then now :: ts else ts, d'', hw'')
          end
      end
  end.

(** Consecutive timestamps at least [period] apart, the first at least
    [period] after [t0]. *)
Fixpoint spaced_from (t0 period : Z) (ts : list Z) : Prop :=
  match ts with
  | [] => True
  | t :: rest => t0 + period <= t /\ spaced_from t period rest
  end.

(** A test driver for the steady dimmer: each step optionally assigns
    [dim] and then calls [update()]. *)
Fixpoint steady_run (steps : list (option Z)) (d : Dimmer.t) : M Hw Dimmer.t :=
  match steps with
  | [] => ret d
  | step :: rest =>
      let d := match step with
               | Some value => Dimmer.set_dim value d
               | None => d
               end in
      d <- Dimmer.update None d ;;
      steady_run rest d
  end.

(** The intensity the dimmer has at each [update()] of such a run. *)
Fixpoint dims_seen (steps : list (option Z)) (d : Dimmer.t) : list Z :=
  match steps with
  | [] => []
  | step :: rest =>
      let d := match step with
               | Some value => Dimmer.set_dim value d
               | None => d
               end in
      Dimmer.dim d :: dims_seen rest d
  end.

(** The values of [dims] that differ from the one before them, [last]
    being the one before the first. *)
Fixpoint changes (last : option Z) (dims : list Z) : list Z :=
  match dims with
  | [] => []
  | v :: rest =>
      if decide (last = Some v) then changes (Some v) rest
      else v :: changes (Some v) rest
  end.

(** ** Well-formed machines *)

(** A state whose audio is bound the way main.py binds it: a
    [TriggeredState] has its I2S bus, an [AmbientState] that has a wave has
    its bus too. *)
Definition playback_bound (obj : ActorState) : Prop :=
  match obj with
  | Ambient s => is_Some (State.wave s) -> is_Some (State.i2s s)
  | Triggered s _ => is_Some (State.i2s s)
  end.

(** The active state and every registered state are objects of the heap
    with their audio bound. *)
Definition machine_ok (m : StateMachine.t) (w : World) : Prop :=
  (forall r, StateMachine.state m = Some r ->
     exists obj, heap w !! r = Some obj /\ playback_bound obj) /\
  (forall key r, StateMachine.states m !! key = Some r ->
     exists obj, heap w !! r = Some obj /\ playback_bound obj).

Definition is_KeyError (f : Fault) : Prop :=
  match f with
  | KeyError _ => True
  | _ => False
  end.

(** What leaving and entering a state with bound audio does to the
    hardware and to the object. *)
Definition exit_events (obj : ActorState) : list Event :=
  Stdout ("Exiting " ++ name obj) ::
  match obj with
  | Ambient s =>
      match State.wave s, State.i2s s with
      | Some _, Some bus => [I2sStop bus]
      | _, _ => []
      end
  | Triggered _ _ => []
  end.

Definition enter_events (obj : ActorState) : list Event :=
  Stdout ("Entering " ++ name obj) ::
  match obj with
  | Ambient s =>
      match State.wave s, State.i2s s with
      | Some wv, Some bus => [I2sPlay bus (Some wv) true]
      | _, _ => []
      end
  | Triggered s _ =>
      match State.i2s s with
      | Some bus => [I2sPlay bus (State.wave s) false]
      | None => []
      end
  end.

Definition entered_hw (obj : ActorState) (h : Hw) : Hw :=
  match obj with
  | Ambient _ => appended (enter_events obj) h
  | Triggered _ _ =>
      mkHw (trace h ++ enter_events obj) (ns_reads h) (monotonic_ns h)
           (S (s_reads h)) (monotonic h) (playing h) (fell h) (float h)
  end.

Definition entered (obj : ActorState) (h : Hw) : ActorState :=
  match obj with
  | Ambient s =>
      Ambient (State.with_effects (map Effect.enter (State.effects s)) s)
  | Triggered s _ =>
      Triggered (State.with_effects (map Effect.enter (State.effects s)) s)
                (monotonic h (s_reads h) + TRIGGER_DURATION)%Q
  end.

(** The events of leaving the active state, if there is one. *)
Definition leave_events (m : StateMachine.t) (w : World) : list Event :=
  match StateMachine.state m with
  | Some r =>
      match heap w !! r with
      | Some obj => exit_events obj
      | None => []
      end
  | None => []
  end.

(** ** Fixtures *)

(** Hardware at rest: nothing written yet, both clocks at 0, no audio
    playing, the trigger quiet. *)
Definition idle_hw : Hw :=
  mkHw [] 0 (fun _ => 0) 0 (fun _ => 0%Q) (fun _ => false) false
       Float.single30.


(** A flicker on pin 16 with the stock seed, lit at intensity 5 for one
    tick at 33,333,333 ns and then switched off. *)
Definition flicker_lit : Flicker.t := Flicker.mk 16 5 0x2AE7 33333333 16320.
Definition flicker_switched_off : Flicker.t := Flicker.set_dim 0 flicker_lit.

(** A dimmer on pin 16 with a linear table, strobing at 10 Hz. *)
Definition dimmer_strobing : Dimmer.t :=
  Dimmer.mk 16 200 10 0 50000000 0 true
    (map (fun i => upscale (Z.of_nat i)) (seq 0 256)) None.

(** The same dimmer, steady. *)
Definition dimmer_steady : Dimmer.t :=
  Dimmer.mk 16 200 0 0 0 0 true
    (map (fun i => upscale (Z.of_nat i)) (seq 0 256)) None.


(** The stage of the specification's end-to-end scenario: an ambient state
    without audio that owns one steady dimmer, a triggered state with its
    one-shot clip and a flicker, both registered, the ambient one active. *)
Definition stage_ambient : State.t :=
  State.mk [Effect.EDimmer dimmer_steady] None None.

Definition stage_triggered : State.t :=
  State.mk [Effect.EFlicker flicker_lit] (Some 0%nat) (Some "/sd/001.wav").

Definition stage_heap : gmap nat ActorState :=
  <[1%nat := Triggered stage_triggered 0%Q]>
    (<[0%nat := Ambient stage_ambient]> ∅).

Definition stage_world : World := mkWorld idle_hw stage_heap.

Definition stage_states : gmap string nat :=
  <["triggered" := 1%nat]> (<["ambient" := 0%nat]> ∅).

Definition stage_machine : StateMachine.t :=
  StateMachine.mk (Some 0%nat) stage_states.

(** The same machine while the triggered state is active. *)
Definition stage_machine_triggered : StateMachine.t :=
  StateMachine.mk (Some 1%nat) stage_states.

(** Hardware while the clip plays, the clock at 70 ms. *)
Definition playing_hw : Hw :=
  mkHw [] 0 (fun _ => 70000000) 0 (fun _ => 0%Q) (fun _ => true) false
       Float.single30.

(** The environment between two ticks: the debouncer reports a falling
    edge. *)
Definition trigger_falls (w : World) : World :=
  mkWorld (mkHw (trace (hw w)) (ns_reads (hw w)) (monotonic_ns (hw w))
             (s_reads (hw w)) (monotonic (hw w)) (playing (hw w)) true
             (float (hw w)))
          (heap w).

(** What a test observes of a run: the active state and the hardware
    trace. *)
Definition observed (r : Res (StateMachine.t * World))
  : option (option nat * list Event) :=
  match r with
  | Ok (m, w) => Some (StateMachine.state m, trace (hw w))
  | Raise _ => None
  end.

(** ** Further drivers *)

(** The writes of a strobe that toggles [n] times on [pin], [level] being
    the rendered intensity and [on] the phase of the first toggle. *)
Fixpoint strobe_writes (pin : nat) (level : Z) (on : bool) (n : nat)
  : list Event :=
  match n with
  | O => []
  | S k =>
      PwmWrite pin (if on then level else 0)
      :: strobe_writes pin level (negb on) k
  end.

(** [n] applications of [Flicker._lfsr_step]. *)
Definition lfsr_steps (n : N) (s : Z) : Z := N.iter n Flicker._lfsr_step s.

(** One step of a scan of the LFSR orbit: the state, and whether the state
    1 has been met since the start. *)
Definition lfsr_scan (st : Z * bool) : Z * bool :=
  let s := Flicker._lfsr_step (fst st) in (s, snd st || (s =? 1)).

(** ** The main loop

    [while True: trigger.update(); state_machine.update()].  What the
    drivers report changes between iterations: [sense] installs the trigger
    edge and the playing flags an iteration sees, and [main_loop] runs one
    iteration per element of its list. *)

Record Inputs : Type := mkInputs {
  in_fell : bool;
  in_playing : nat -> bool
}.

Definition sense (i : Inputs) (w : World) : World :=
  mkWorld (mkHw (trace (hw w)) (ns_reads (hw w)) (monotonic_ns (hw w))
             (s_reads (hw w)) (monotonic (hw w)) (in_playing i) (in_fell i)
             (float (hw w)))
          (heap w).

Fixpoint main_loop (inputs : list Inputs) (m : StateMachine.t) (w : World)
  : Res (StateMachine.t * World) :=
  match inputs with
  | [] => Ok (m, w)
  | i :: rest =>
      match StateMachine.update m (sense i w) with
      | Ok (m', w') => main_loop rest m' w'
      | Raise f => Raise f
      end
  end.

(** A state object as main.py builds them: audio bound, effects built by
    the constructors and used through their methods. *)
Definition object_ok (obj : ActorState) : Prop :=
  playback_bound obj /\ Forall Effect_reach (State.effects (fields obj)).

(** A machine as main.py leaves it: every state object well built, every
    registered reference live, the active state a registered one, and both
    names the states request registered. *)
Definition loop_ok (m : StateMachine.t) (w : World) : Prop :=
  (forall r obj, heap w !! r = Some obj -> object_ok obj) /\
  (forall key r, StateMachine.states m !! key = Some r ->
     is_Some (heap w !! r)) /\
  (forall r, StateMachine.state m = Some r ->
     exists key, StateMachine.states m !! key = Some r) /\
  is_Some (StateMachine.states m !! "ambient") /\
  is_Some (StateMachine.states m !! "triggered").

Definition is_PwmWrite (e : Event) : Prop :=
  match e with
  | PwmWrite _ _ => True
  | _ => False
  end.

(** The hardware after one call of [time.monotonic_ns()]. *)
Definition sampled (h : Hw) : Hw :=
  mkHw (trace h) (S (ns_reads h)) (monotonic_ns h) (s_reads h) (monotonic h)
       (playing h) (fell h) (float h).

(** ** Start-up: reading the configuration and building the machine

    The module-level code of main.py from [state_machine = StateMachine()]
    to the banner, after the hardware is brought up and the trigger clip
    was found (without it main.py never gets this far).

    [cptoml] is outside the source.  A subtable of the configuration file
    is what its two calls deliver: [keys] the list [cptoml.keys] returns,
    [fetch_str] and [fetch_int] what [cptoml.fetch] returns for a key.  The
    embedding covers configurations whose [effect1]/[effect2] entries are
    strings and whose [dim], [strobe] and [seed] entries are integers, and
    reads of a file that either fail at [cptoml.keys] with [OSError] or
    succeed throughout. *)

Definition CONFIG_FILE : string := "/sd/config.toml".
Definition AMBIENT_FILE : string := "/sd/000.wav".
Definition TRIGGER_FILE : string := "/sd/001.wav".

(** [output1] (GP16), [output2] (GP13) and the one I2S bus. *)
Definition output1 : nat := 16.
Definition output2 : nat := 13.
Definition i2s : nat := 0.

Record Subtable : Type := mkSubtable {
  keys : list string;
  fetch_str : string -> string;
  fetch_int : string -> Z
}.

(** [inl msg]: [cptoml.keys] raised [OSError(msg)]. *)
Definition Toml : Type := string -> string + Subtable.

(** One of the dicts [output1_config], [output2_config]. *)
Record EffectConfig : Type := mkConfig {
  cfg_effect : string;
  cfg_dim : Z;
  cfg_strobe : Z;
  cfg_seed : Z
}.

Definition default_config (seed : Z) : EffectConfig :=
  mkConfig "dimmer" 0 0 seed.

(** What can end start-up: the [NameError] of an unbound name, or a fault
    of the classes. *)
Inductive StartupError : Type :=
| NameError (name : string)
| ClassFault (f : Fault).

Inductive Startup (A : Type) : Type :=
| Started (a : A)
| Failed (e : StartupError).
Arguments Started {A} a.
Arguments Failed {A} e.

Definition SM (A : Type) : Type := World -> Startup (A * World).

Definition sret {A} (a : A) : SM A := fun w => Started (a, w).

Definition sbind {A B} (m : SM A) (k : A -> SM B) : SM B :=
  fun w => match m w with
           | Started (a, w') => k a w'
           | Failed e => Failed e
           end.

Definition sraise {A} (e : StartupError) : SM A := fun _ => Failed e.

Definition of_M {A} (m : M World A) : SM A :=
  fun w => match m w with
           | Ok r => Started r
           | Raise f => Failed (ClassFault f)
           end.

Notation "x <~ m ;; k" := (sbind m (fun x => k))
  (at level 100, m at next level, right associativity).

Definition print (line : string) : SM unit := of_M (lift (emit (Stdout line))).

(** The body of the [for key in keys] loop of the 'ambient' section. *)
Definition read_key_ambient (t : Subtable) (key : string)
    (cs : EffectConfig * EffectConfig) : EffectConfig * EffectConfig :=
  let (c1, c2) := cs in
  if String.eqb key "effect1" then
    (mkConfig (fetch_str t key) (cfg_dim c1) (cfg_strobe c1) (cfg_seed c1), c2)
  else if String.eqb key "effect1.dim" then
    (mkConfig (cfg_effect c1) (fetch_int t key) (cfg_strobe c1) (cfg_seed c1), c2)
  else if String.eqb key "effect1.strobe" then
    (mkConfig (cfg_effect c1) (cfg_dim c1) (fetch_int t key) (cfg_seed c1), c2)
  else if String.eqb key "effect1.seed" then
    (mkConfig (cfg_effect c1) (cfg_dim c1) (cfg_strobe c1) (fetch_int t key), c2)
  else if String.eqb key "effect2" then
    (c1, mkConfig (fetch_str t key) (cfg_dim c2) (cfg_strobe c2) (cfg_seed c2))
  else if String.eqb key "effect2.dim" then
    (c1, mkConfig (cfg_effect c2) (fetch_int t key) (cfg_strobe c2) (cfg_seed c2))
  else if String.eqb key "effect2.strobe" then
    (c1, mkConfig (cfg_effect c2) (cfg_dim c2) (fetch_int t key) (cfg_seed c2))
  else if String.eqb key "effect2.seed" then
    (c1, mkConfig (cfg_effect c2) (cfg_dim c2) (cfg_strobe c2) (fetch_int t key))
  else cs.

(** The body of the loop of the 'triggered' section: the branch for
    ['effect1.strobe'] assigns into [output1_confic], a name that is bound
    nowhere. *)
Definition read_key_triggered (t : Subtable) (key : string)
    (cs : EffectConfig * EffectConfig)
  : StartupError + EffectConfig * EffectConfig :=
  let (c1, c2) := cs in
  if String.eqb key "effect1" then
    inr (mkConfig (fetch_str t key) (cfg_dim c1) (cfg_strobe c1) (cfg_seed c1), c2)
  else if String.eqb key "effect1.dim" then
    inr (mkConfig (cfg_effect c1) (fetch_int t key) (cfg_strobe c1) (cfg_seed c1), c2)
  else if String.eqb key "effect1.strobe" then
    inl (NameError "output1_confic")
  else if String.eqb key "effect1.seed" then
    inr (mkConfig (cfg_effect c1) (cfg_dim c1) (cfg_strobe c1) (fetch_int t key), c2)
  else if String.eqb key "effect2" then
    inr (c1, mkConfig (fetch_str t key) (cfg_dim c2) (cfg_strobe c2) (cfg_seed c2))
  else if String.eqb key "effect2.dim" then
    inr (c1, mkConfig (cfg_effect c2) (fetch_int t key) (cfg_strobe c2) (cfg_seed c2))
  else if String.eqb key "effect2.strobe" then
    inr (c1, mkConfig (cfg_effect c2) (cfg_dim c2) (fetch_int t key) (cfg_seed c2))
  else if String.eqb key "effect2.seed" then
    inr (c1, mkConfig (cfg_effect c2) (cfg_dim c2) (cfg_strobe c2) (fetch_int t key))
  else inr cs.

Fixpoint read_keys_ambient (t : Subtable) (ks : list string)
    (cs : EffectConfig * EffectConfig) : EffectConfig * EffectConfig :=
  match ks with
  | [] => cs
  | key :: rest => read_keys_ambient t rest (read_key_ambient t key cs)
  end.

Fixpoint read_keys_triggered (t : Subtable) (ks : list string)
    (cs : EffectConfig * EffectConfig)
  : StartupError + EffectConfig * EffectConfig :=
  match ks with
  | [] => inr cs
  | key :: rest =>
      match read_key_triggered t key cs with
      | inl e => inl e
      | inr cs' => read_keys_triggered t rest cs'
      end
  end.

(** The two [try: ... except OSError as err: print(...)] blocks. *)
Definition config_not_found (msg : string) : SM unit :=
  print ("Application configuration not found: " ++ msg).

Definition read_ambient (toml : Toml)
  : SM (EffectConfig * EffectConfig) :=
  let cs := (default_config 0x55ce, default_config 0x55ce) in
  match toml "ambient" with
  | inr t => sret (read_keys_ambient t (keys t) cs)
  | inl msg => _ <~ config_not_found msg ;; sret cs
  end.

Definition read_triggered (toml : Toml)
  : SM (EffectConfig * EffectConfig) :=
  let cs := (default_config 0x55ce, default_config 0x6c4a) in
  match toml "triggered" with
  | inr t =>
      match read_keys_triggered t (keys t) cs with
      | inr cs' => sret cs'
      | inl e => sraise e
      end
  | inl msg => _ <~ config_not_found msg ;; sret cs
  end.

(** [if config['effect'] == 'dimmer': ... elif config['effect'] ==
    'flicker': ...]: the effect of one output, added to a state.
    [gamma_entry] is the table expression of [Dimmer]'s default gamma. *)
Definition add_configured_effect (gamma_entry : Z -> Z) (pwmout : nat)
    (c : EffectConfig) (s : State.t) : SM State.t :=
  if String.eqb (cfg_effect c) "dimmer" then
    effect <~ of_M (lift (Dimmer.__init__ pwmout gamma_entry)) ;;
    let effect := Dimmer.set_dim (cfg_dim c) effect in
    effect <~ of_M (lift (Dimmer.set_strobe (cfg_strobe c) effect)) ;;
    sret (State.add_effect (Effect.EDimmer effect) s)
  else if String.eqb (cfg_effect c) "flicker" then
    let effect := Flicker.__init__ pwmout (cfg_seed c) in
    let effect := Flicker.set_dim (cfg_dim c) effect in
    sret (State.add_effect (Effect.EFlicker effect) s)
  else sret s.

(** State objects are allocated when they are registered; until then
    nothing else refers to them. *)
Definition startup (ambient_audio_exists : bool) (toml : Toml)
    (gamma_entry : Z -> Z) : SM StateMachine.t :=
  let state_machine := StateMachine.__init__ in
  let ambient_state := State.__init__ in
  let ambient_state :=
    if ambient_audio_exists
    then State.set_wave AMBIENT_FILE (State.set_i2s i2s ambient_state)
    else ambient_state in
  cs <~ read_ambient toml ;;
  ambient_state <~ add_configured_effect gamma_entry output1 (fst cs)
                     ambient_state ;;
  ambient_state <~ add_configured_effect gamma_entry output2 (snd cs)
                     ambient_state ;;
  r <~ of_M (new (Ambient ambient_state)) ;;
  state_machine <~ of_M (StateMachine.add_state r state_machine) ;;
  let triggered_state := State.__init__ in
  let triggered_state :=
    State.set_wave TRIGGER_FILE (State.set_i2s i2s triggered_state) in
  cs <~ read_triggered toml ;;
  triggered_state <~ add_configured_effect gamma_entry output1 (fst cs)
                       triggered_state ;;
  triggered_state <~ add_configured_effect gamma_entry output2 (snd cs)
                       triggered_state ;;
  r <~ of_M (new (Triggered triggered_state 0%Q)) ;;
  state_machine <~ of_M (StateMachine.add_state r state_machine) ;;
  state_machine <~ of_M (StateMachine.go_to_state "ambient" state_machine) ;;
  _ <~ print "" ;;
  _ <~ print "Electronic Actor Enhancement Controller" ;;
  _ <~ print ("Settings from config file: " ++ CONFIG_FILE) ;;
  sret state_machine.

(** A configuration file with an 'ambient' table that makes the first
    output a flicker at intensity 9, and no 'triggered' entries. *)
Definition sample_toml : Toml :=
  fun subtable =>
    if String.eqb subtable "ambient"
    then inr (mkSubtable ["effect1"; "effect1.dim"]
                (fun _ => "flicker") (fun _ => 9))
    else inr (mkSubtable [] (fun _ => "") (fun _ => 0)).

(** A configuration file whose 'triggered' table sets the first output's
    strobe. *)
Definition strobe_toml : Toml :=
  fun subtable =>
    if String.eqb subtable "triggered"
    then inr (mkSubtable ["effect1.strobe"] (fun _ => "") (fun _ => 10))
    else inr (mkSubtable [] (fun _ => "") (fun _ => 0)).

Definition started (r : Startup (StateMachine.t * World))
  : option (option nat * list Event) :=
  match r with
  | Started (m, w) => Some (StateMachine.state m, trace (hw w))
  | Failed _ => None
  end.

(** A dimmer as the constructor leaves it, intensity 0 and no strobe, with
    the given cache of the last rendered intensity. *)
Definition dark_dimmer (gamma_entry : Z -> Z) (pwmout : nat)
    (last_dim : option Z) : Dimmer.t :=
  Dimmer.mk pwmout 0 0 0 0 0 true
    (map (fun i => gamma_entry (Z.of_nat i)) (seq 0 256)) last_dim.

(** A test driver for the flicker: [update(now)] for each timestamp in
    turn, collecting the timestamps of the calls that wrote to the sink. *)
Fixpoint flicker_run (nows : list Z) (f : Flicker.t) (hw : Hw)
  : Res (list Z * Flicker.t * Hw) :=
  match nows with
  | [] => Ok ([], f, hw)
  | now :: rest =>
      match Flicker.update (Some now) f hw with
      | Raise e => Raise e
      | Ok (r, hw') =>
          let wrote := negb (length (trace hw') =? length (trace hw))%nat in
          match flicker_run rest (fst r) hw' with
          | Raise e => Raise e
          | Ok (ts, f', hw'') =>
              Ok (if wrote then now :: ts else ts, f', hw'')
          end
      end
  end.

(** * Properties *)

Lemma lxor_below (a b n : Z) :
  0 < n -> 0 <= a < 2 ^ n -> 0 <= b < 2 ^ n -> 0 <= Z.lxor a b < 2 ^ n.
Proof.
  intros Hn Ha Hb.
  assert (H0 : 0 <= Z.lxor a b) by (apply Z.lxor_nonneg; lia).
  split; [exact H0|].
  destruct (Z.eq_dec (Z.lxor a b) 0) as [->|Hne]; [apply Z.pow_pos_nonneg; lia|].
  apply Z.log2_lt_pow2; [lia|].
  pose proof (Z.log2_lxor a b ltac:(lia) ltac:(lia)) as Hl.
  assert (Z.log2 a < n).
  { destruct (Z.eq_dec a 0) as [->|]; [simpl; lia|]. apply Z.log2_lt_pow2; lia. }
  assert (Z.log2 b < n).
  { destruct (Z.eq_dec b 0) as [->|]; [simpl; lia|]. apply Z.log2_lt_pow2; lia. }
  lia.
Qed.

Lemma land_1_mod (s : Z) : Z.land s 1 = s mod 2.
Proof. change 1 with (Z.ones 1). rewrite Z.land_ones by lia. reflexivity. Qed.

Lemma lfsr_step_pos (s : Z) :
  0 < s < 65536 -> 0 < Flicker._lfsr_step s < 65536.
Proof.
  intros Hs. unfold Flicker._lfsr_step.
  rewrite land_1_mod, Z.shiftr_div_pow2 by lia. change (2 ^ 1) with 2.
  pose proof (Z.div_mod s 2 ltac:(lia)) as Hdm.
  pose proof (Z.mod_pos_bound s 2 ltac:(lia)) as Hm.
  destruct (s mod 2 =? 0) eqn:E; simpl.
  - apply Z.eqb_eq in E. lia.
  - assert (Hx : 0 <= s / 2 < 2 ^ 15) by (change (2 ^ 15) with 32768; lia).
    assert (Hb : 0 <= Z.lxor (s / 2) 33323 < 2 ^ 16).
    { apply lxor_below; [lia| change (2^16) with 65536; lia | change (2^16) with 65536; lia]. }
    change (2 ^ 16) with 65536 in Hb.
    assert (Hbit : Z.testbit (Z.lxor (s / 2) 33323) 15 = true).
    { rewrite Z.lxor_spec.
      replace (Z.testbit (s / 2) 15) with false; [reflexivity|].
      symmetry. apply Z.testbit_false; [lia|].
      rewrite Z.div_small by lia. reflexivity. }
    destruct (Z.eq_dec (Z.lxor (s / 2) 33323) 0) as [Hz|]; [|lia].
    rewrite Hz in Hbit. discriminate.
Qed.

Lemma lfsr_step_neg (s : Z) : s < 0 -> Flicker._lfsr_step s < 0.
Proof.
  intros Hs. unfold Flicker._lfsr_step.
  assert (Hh : Z.shiftr s 1 < 0) by (apply Z.shiftr_neg; lia).
  destruct (negb _); [|exact Hh].
  destruct (Z.lt_ge_cases (Z.lxor (Z.shiftr s 1) 33323) 0) as [|Hge]; [assumption|].
  apply Z.lxor_nonneg in Hge. lia.
Qed.

(** Unfolding one monadic step. *)
Ltac run :=
  repeat (unfold bind, ret, raise, emit, log, py_rshift, lift, deref, store,
            time_monotonic_ns, time_monotonic, i2s_playing, trigger_fell;
          simpl).

Lemma appended_nil (hw : Hw) : appended [] hw = hw.
Proof. destruct hw. unfold appended. simpl. rewrite app_nil_r. reflexivity. Qed.

Lemma appended_app (es1 es2 : list Event) (hw : Hw) :
  appended es2 (appended es1 hw) = appended (es1 ++ es2) hw.
Proof. unfold appended. simpl. rewrite app_assoc. reflexivity. Qed.

Lemma land_bit8 (x : Z) : (Z.land x 0x100 =? 0) = negb (Z.testbit x 8).
Proof.
  assert (H : Z.land x (2 ^ 8) = if Z.testbit x 8 then 2 ^ 8 else 0).
  { apply Z.bits_inj'. intros n Hn.
    rewrite Z.land_spec, Z.pow2_bits_eqb by lia.
    destruct (Z.eqb_spec 8 n) as [<-|Hne].
    - rewrite andb_true_r. destruct (Z.testbit x 8); reflexivity.
    - rewrite andb_false_r. symmetry.
      destruct (Z.testbit x 8); [|apply Z.bits_0].
      rewrite Z.pow2_bits_eqb by lia. apply Z.eqb_neq. exact Hne. }
  change 0x100 with (2 ^ 8). rewrite H.
  destruct (Z.testbit x 8); reflexivity.
Qed.

Lemma lfsr_step_live (s : Z) : lfsr_live s -> lfsr_live (Flicker._lfsr_step s).
Proof.
  intros [Hne Hlt]. unfold lfsr_live.
  destruct (Z.lt_ge_cases s 0) as [Hneg|Hpos].
  - pose proof (lfsr_step_neg s Hneg). lia.
  - pose proof (lfsr_step_pos s ltac:(lia)). lia.
Qed.

Lemma lfsr_iter_live (n : nat) (s : Z) :
  lfsr_live s -> lfsr_live (Nat.iter n Flicker._lfsr_step s).
Proof.
  intros Hs. induction n as [|n IH]; simpl; [exact Hs|].
  apply lfsr_step_live, IH.
Qed.

Lemma lfsr_loop_spec (n : nat) (s : Z) :
  (0 < n)%nat ->
  exists k : nat,
    (1 <= k <= n)%nat /\
    Flicker.lfsr_loop n s = Nat.iter k Flicker._lfsr_step s /\
    (forall j : nat, (1 <= j < k)%nat ->
       Z.land (Nat.iter j Flicker._lfsr_step s) 0xFF <= 128) /\
    ((k < n)%nat -> Z.land (Nat.iter k Flicker._lfsr_step s) 0xFF > 128).
Proof.
  revert s. induction n as [|n IH]; intros s Hn; [lia|].
  simpl Flicker.lfsr_loop.
  destruct (Z.land (Flicker._lfsr_step s) 255 >? 128) eqn:E.
  - exists 1%nat. simpl. split; [lia|]. split; [reflexivity|]. split; intros; lia.
  - assert (Hle : Z.land (Flicker._lfsr_step s) 255 <= 128).
    { rewrite Z.gtb_ltb in E. apply Z.ltb_ge in E. exact E. }
    destruct n as [|n].
    + exists 1%nat. simpl. split; [lia|]. split; [reflexivity|]. split; intros; lia.
    + destruct (IH (Flicker._lfsr_step s) ltac:(lia)) as (k & Hk & Heq & Hlow & Hhigh).
      exists (S k). rewrite Nat.iter_succ_r.
      split; [lia|]. split; [|split].
      * exact Heq.
      * intros j Hj. destruct j as [|j]; [lia|].
        rewrite Nat.iter_succ_r.
        destruct j as [|j]; [simpl; exact Hle|].
        apply Hlow. lia.
      * intros Hlt. apply Hhigh. lia.
Qed.

Lemma lfsr_loop_live (n : nat) (s : Z) :
  lfsr_live s -> lfsr_live (Flicker.lfsr_loop n s).
Proof.
  intros Hs. destruct n as [|n]; [exact Hs|].
  destruct (lfsr_loop_spec (S n) s ltac:(lia)) as (k & _ & -> & _).
  apply lfsr_iter_live, Hs.
Qed.

Arguments Flicker.lfsr_loop : simpl never.

(** What a call of [Flicker.update] that returns can have done. *)
Lemma Flicker_update_inv now f hw f' v hw' :
  Flicker.update now f hw = Ok ((f', v), hw') ->
  Flicker.pwmout f' = Flicker.pwmout f /\
  Flicker.dim f' = Flicker.dim f /\
  (f' = f \/
   Flicker.rnd_lfsr f' = Flicker.lfsr_loop 3 (Flicker.rnd_lfsr f) /\
   Flicker.dim f <> 0 /\ Flicker.duty_cycle f' = v).
Proof.
  unfold Flicker.update.
  destruct now as [now|]; run.
  all: match goal with |- context [?a >=? ?b] => destruct (a >=? b) end.
  all: try (intros H; injection H as <- <- <-; auto).
  all: destruct (Flicker.dim f =? 0) eqn:Ed; run.
  all: try (intros H; injection H as <- <- <-; auto).
  all: destruct (6 - Flicker.dim f <? 0); run; try discriminate.
  all: intros H; injection H as <- <- <-; simpl.
  all: apply Z.eqb_neq in Ed.
  all: split; [reflexivity|]; split; [reflexivity|]; right; auto.
Qed.

(** ** The LFSR never reaches zero *)

Lemma Flicker_reach_live (seed : Z) (f : Flicker.t) :
  lfsr_live seed -> Flicker_reach seed f -> lfsr_live (Flicker.rnd_lfsr f).
Proof.
  intros Hseed Hreach.
  induction Hreach as [pwmout|value f _ IH|f _ IH|f _ IH|now f hw f' v hw' _ IH Hup];
    try exact IH; [exact Hseed|].
  destruct (Flicker_update_inv _ _ _ _ _ _ Hup) as (_ & _ & [->|(-> & _)]);
    [exact IH|].
  apply lfsr_loop_live, IH.
Qed.

(** C5, as amended: for every nonzero seed below 2^16 (every nonzero 16-bit
    seed, and every negative one) the LFSR state is never 0 after any number
    of applications of the step function, and the state of a Flicker built
    with that seed is never 0 after any number of setter and update calls. *)
Theorem lfsr_state_never_zero (seed : Z) :
  seed <> 0 -> seed < 65536 ->
  (forall n : nat, Nat.iter n Flicker._lfsr_step seed <> 0) /\
  (forall f : Flicker.t, Flicker_reach seed f -> Flicker.rnd_lfsr f <> 0).
Proof.
  intros Hne Hlt. assert (Hlive : lfsr_live seed) by (split; assumption).
  split.
  - intros n. apply (lfsr_iter_live n seed Hlive).
  - intros f Hf. apply (Flicker_reach_live seed f Hlive Hf).
Qed.

Lemma lfsr_state_never_zero_witness :
  0x55CE <> 0 /\ 0x55CE < 65536 /\
  (forall n : nat, Nat.iter n Flicker._lfsr_step 0x55CE <> 0) /\
  (forall f : Flicker.t, Flicker_reach 0x55CE f -> Flicker.rnd_lfsr f <> 0).
Proof.
  split; [lia|]. split; [lia|]. apply (lfsr_state_never_zero 0x55CE); lia.
Defined.

(** C5, as stated, fails: the nonzero 17-bit seed 0x10457 steps to 0, and a
    Flicker built with it holds state 0 after its first rendered tick. *)
Lemma lfsr_seed_0x10457_reaches_zero :
  0x10457 <> 0 /\
  Nat.iter 1 Flicker._lfsr_step 0x10457 = 0 /\
  exists f : Flicker.t, Flicker_reach 0x10457 f /\ Flicker.rnd_lfsr f = 0.
Proof.
  split; [lia|]. split; [reflexivity|].
  exists (Flicker.mk 16 5 0 33333333 5568). split; [|reflexivity].
  apply (FR_update 0x10457 (Some 33333333)
           (Flicker.set_dim 5 (Flicker.__init__ 16 0x10457)) idle_hw _ 5568
           (appended [PwmWrite 16 5568] idle_hw)).
  - apply FR_set_dim, FR_init.
  - reflexivity.
Qed.

(** ** Flicker.update *)

(** C3: for a Flicker with intensity 1..5, an update earlier than
    33,333,333 ns after the last one changes no field and writes nothing;
    otherwise it records the time, draws newval from bit 8 and the low byte
    of the LFSR state, filters, scales by [6 - dim], writes and returns the
    result, and advances the LFSR by 1 to 3 steps, stopping after the first
    step that leaves a low byte above 128. *)
Theorem Flicker_update_lit (f : Flicker.t) (now : Z) (hw : Hw) :
  1 <= Flicker.dim f <= 5 ->
  (now < Flicker.last_flicker f + 33333333 ->
   Flicker.update (Some now) f hw = Ok ((f, Flicker.duty_cycle f), hw)) /\
  (now >= Flicker.last_flicker f + 33333333 ->
   let state := Flicker.rnd_lfsr f in
   let newval := if Z.testbit state 8 then 255 else Z.land state 0xFF in
   let filtered :=
     Flicker.duty_cycle f - Z.shiftr (Flicker.duty_cycle f) 1
     + Z.shiftl newval 7 in
   let scaled := Z.shiftr filtered (6 - Flicker.dim f) in
   exists f' : Flicker.t,
     Flicker.update (Some now) f hw
     = Ok ((f', scaled), appended [PwmWrite (Flicker.pwmout f) scaled] hw) /\
     Flicker.pwmout f' = Flicker.pwmout f /\
     Flicker.dim f' = Flicker.dim f /\
     Flicker.last_flicker f' = now /\
     Flicker.duty_cycle f' = scaled /\
     exists k : nat,
       (1 <= k <= 3)%nat /\
       Flicker.rnd_lfsr f' = Nat.iter k Flicker._lfsr_step state /\
       (forall j : nat, (1 <= j < k)%nat ->
          Z.land (Nat.iter j Flicker._lfsr_step state) 0xFF <= 128) /\
       ((k < 3)%nat -> Z.land (Nat.iter k Flicker._lfsr_step state) 0xFF > 128)).
Proof.
  intros Hdim. unfold Flicker.update. run. split; intros Hnow.
  - destruct (Z.geb_spec now (Flicker.last_flicker f + 33333333)); [lia|].
    reflexivity.
  - destruct (Z.geb_spec now (Flicker.last_flicker f + 33333333)); [|lia].
    destruct (Z.eqb_spec (Flicker.dim f) 0); [lia|]. run.
    destruct (Z.ltb_spec (6 - Flicker.dim f) 0); [lia|]. run.
    rewrite land_bit8, negb_involutive.
    eexists. split; [reflexivity|]. simpl.
    repeat (split; [reflexivity|]).
    apply lfsr_loop_spec. lia.
Qed.

Lemma Flicker_update_lit_witness :
  1 <= Flicker.dim flicker_lit <= 5 /\
  exists f' : Flicker.t,
    Flicker.update (Some 66666666) flicker_lit idle_hw
    = Ok ((f', 18864), appended [PwmWrite 16 18864] idle_hw).
Proof.
  split; [simpl; lia|].
  destruct (proj2 (Flicker_update_lit flicker_lit 66666666 idle_hw
                     ltac:(simpl; lia)) ltac:(simpl; lia))
    as (f' & Hup & _).
  exists f'. exact Hup.
Defined.

(** C6, as amended: for a Flicker whose intensity is 0, every update whose
    timestamp is at least 33,333,333 ns after [last_flicker] writes 0 to the
    PWM sink and returns 0, whatever the LFSR state, and changes no field
    (so the next call does the same); an earlier update writes nothing and
    returns the stored duty cycle. *)
Theorem Flicker_update_off (f : Flicker.t) (now : Z) (hw : Hw) :
  Flicker.dim f = 0 ->
  (now >= Flicker.last_flicker f + 33333333 ->
   Flicker.update (Some now) f hw
   = Ok ((f, 0), appended [PwmWrite (Flicker.pwmout f) 0] hw)) /\
  (now < Flicker.last_flicker f + 33333333 ->
   Flicker.update (Some now) f hw = Ok ((f, Flicker.duty_cycle f), hw)).
Proof.
  intros Hdim. unfold Flicker.update. run. rewrite Hdim. simpl.
  split; intros Hnow;
    destruct (Z.geb_spec now (Flicker.last_flicker f + 33333333));
    try lia; reflexivity.
Qed.

Lemma Flicker_update_off_witness :
  Flicker.dim flicker_switched_off = 0 /\
  Flicker.update (Some 66666666) flicker_switched_off idle_hw
  = Ok ((flicker_switched_off, 0), appended [PwmWrite 16 0] idle_hw).
Proof.
  split; [reflexivity|].
  apply (Flicker_update_off flicker_switched_off 66666666 idle_hw);
    [reflexivity | simpl; lia].
Defined.

(** C6, as stated, fails: a Flicker lit for one tick and then set to
    intensity 0 is updated one nanosecond later; the call writes nothing and
    returns 16320. *)
Lemma Flicker_off_within_period_returns_stale_duty :
  Flicker_reach 0x55CE flicker_switched_off /\
  Flicker.dim flicker_switched_off = 0 /\
  Flicker.update (Some 33333334) flicker_switched_off idle_hw
  = Ok ((flicker_switched_off, 16320), idle_hw).
Proof.
  split; [|split; reflexivity].
  apply FR_set_dim.
  apply (FR_update 0x55CE (Some 33333333)
           (Flicker.set_dim 5 (Flicker.__init__ 16 0x55CE)) idle_hw _ 16320
           (appended [PwmWrite 16 16320] idle_hw)).
  - apply FR_set_dim, FR_init.
  - reflexivity.
Qed.

(** ** Dimmer *)


(** With the quotient rounded to nearest in double precision, the half
    period is 500,000,000 / f for every frequency the setter lets
    through. *)
Lemma half_period_double (frequency : Z) :
  1 <= frequency <= 1400 ->
  Qfloor (Float.true_divide Float.double NANOSECONDS_PER_SECOND frequency
          / 2)
  = 500000000 / frequency.
Proof.
  intros Hf.
  assert (Hall : forallb
            (fun n => Qfloor (Float.true_divide Float.double
                                NANOSECONDS_PER_SECOND (Z.of_nat n) / 2)
                      =? 500000000 / Z.of_nat n)
            (seq 1 1400) = true) by (vm_compute; reflexivity).
  rewrite forallb_forall in Hall.
  specialize (Hall (Z.to_nat frequency)).
  rewrite Z2Nat.id in Hall by lia.
  apply Z.eqb_eq, Hall, in_seq. lia.
Qed.

(** In single precision, of either kind, it stays between the half periods
    of 1400 Hz and of 1 Hz. *)
Lemma half_period_single_bounds (frequency : Z) :
  1 <= frequency <= 1400 ->
  357142 <= Qfloor (Float.true_divide Float.single NANOSECONDS_PER_SECOND
                      frequency / 2)
         <= 500000000 /\
  357142 <= Qfloor (Float.true_divide Float.single30 NANOSECONDS_PER_SECOND
                      frequency / 2)
         <= 500000000.
Proof.
  intros Hf.
  assert (Hall : forallb
            (fun n =>
               let p := Qfloor (Float.true_divide Float.single
                                  NANOSECONDS_PER_SECOND (Z.of_nat n) / 2) in
               let p' := Qfloor (Float.true_divide Float.single30
                                   NANOSECONDS_PER_SECOND (Z.of_nat n) / 2) in
               (357142 <=? p) && (p <=? 500000000)
               && (357142 <=? p') && (p' <=? 500000000))
            (seq 1 1400) = true) by (vm_compute; reflexivity).
  rewrite forallb_forall in Hall.
  specialize (Hall (Z.to_nat frequency)).
  rewrite Z2Nat.id in Hall by lia.
  assert (Hin : In (Z.to_nat frequency) (seq 1 1400)) by (apply in_seq; lia).
  specialize (Hall Hin). cbv zeta in Hall.
  rewrite !andb_true_iff, !Z.leb_le in Hall. lia.
Qed.


(** What the strobe setter stores. *)
Lemma set_strobe_result (frequency : Z) (d : Dimmer.t) (hw : Hw) :
  exists d' hw',
    Dimmer.set_strobe frequency d hw = Ok (d', hw') /\
    Dimmer.strobe d' = Z.max 0 (Z.min 1400 frequency) /\
    Dimmer.dim d' = Dimmer.dim d /\
    Dimmer.linear_to_gamma d' = Dimmer.linear_to_gamma d /\
    (Dimmer.strobe d' > 0 ->
     Dimmer.transition_period d'
     = Qfloor (Float.true_divide (float hw) NANOSECONDS_PER_SECOND
                 (Dimmer.strobe d') / 2)) /\
    (Dimmer.strobe d' = 0 ->
     Dimmer.transition_period d' = Dimmer.transition_period d).
Proof.
  unfold Dimmer.set_strobe.
  set (f1 := if frequency <? 0 then 0 else frequency).
  set (f2 := if f1 >? 1400 then 1400 else f1).
  assert (Hf2 : f2 = Z.max 0 (Z.min 1400 frequency)).
  { subst f2 f1. destruct (Z.ltb_spec frequency 0).
    - simpl. lia.
    - destruct (Z.gtb_spec frequency 1400); lia. }
  destruct (Z.gtb_spec f2 0) as [Hpos|Hzero];
    unfold Dimmer.half_period; run.
  - do 2 eexists. split; [reflexivity|]. simpl.
    split; [exact Hf2|]. split; [reflexivity|]. split; [reflexivity|].
    split; [reflexivity|]. intros H0. lia.
  - do 2 eexists. split; [reflexivity|]. simpl.
    split; [exact Hf2|]. split; [reflexivity|]. split; [reflexivity|].
    split; [lia|]. reflexivity.
Qed.

Lemma py_index_in_range {S A} (l : list A) (i : Z) (s : S) :
  0 <= i < Z.of_nat (length l) ->
  exists v, l !! Z.to_nat i = Some v /\ py_index l i s = Ok (v, s).
Proof.
  intros Hi. unfold py_index.
  destruct (Z.ltb_spec i 0); [lia|].
  destruct (Z.ltb_spec i 0); [lia|].
  destruct (lookup_lt_is_Some_2 l (Z.to_nat i) ltac:(lia)) as [v Hv].
  exists v. rewrite Hv. split; reflexivity.
Qed.

Lemma Dimmer_inv_index (d : Dimmer.t) (s : Hw) :
  Dimmer_inv d ->
  py_index (Dimmer.linear_to_gamma d) (Dimmer.dim d) s
  = Ok (gamma d (Dimmer.dim d), s).
Proof.
  intros (Hdim & _ & Hlen).
  destruct (py_index_in_range (Dimmer.linear_to_gamma d) (Dimmer.dim d) s
              ltac:(lia)) as (v & Hv & ->).
  unfold gamma. rewrite Hv. reflexivity.
Qed.

(** The steady branch of [Dimmer.update]. *)
Lemma Dimmer_update_steady (d : Dimmer.t) (now : option Z) (hw : Hw) :
  Dimmer_inv d -> Dimmer.strobe d = 0 ->
  Dimmer.update now d hw =
  if decide (Dimmer.last_dim d = Some (Dimmer.dim d)) then Ok (d, hw)
  else Ok (Dimmer.with_last_dim (Some (Dimmer.dim d)) d,
           appended [PwmWrite (Dimmer.pwmout d) (gamma d (Dimmer.dim d))] hw).
Proof.
  intros Hinv Hs. unfold Dimmer.update. rewrite Hs. simpl.
  destruct (Dimmer.last_dim d) as [last|] eqn:El.
  - destruct (Z.eqb_spec last (Dimmer.dim d)) as [->|Hne]; simpl.
    + rewrite decide_True by reflexivity. reflexivity.
    + rewrite decide_False by congruence.
      unfold bind. rewrite Dimmer_inv_index by assumption. reflexivity.
  - rewrite decide_False by discriminate.
    unfold bind. rewrite Dimmer_inv_index by assumption. reflexivity.
Qed.

(** The strobing branch of [Dimmer.update]. *)
Lemma Dimmer_update_strobing (d : Dimmer.t) (now : Z) (hw : Hw) :
  Dimmer_inv d -> Dimmer.strobe d <> 0 ->
  Dimmer.update (Some now) d hw =
  if now >=? Dimmer.last_transition_time d + Dimmer.transition_period d
  then Ok (toggled now d,
           appended [PwmWrite (Dimmer.pwmout d)
                       (if Dimmer.next_transition d
                        then gamma d (Dimmer.dim d) else 0)] hw)
  else Ok (d, hw).
Proof.
  intros Hinv Hs. unfold Dimmer.update.
  destruct (Z.eqb_spec (Dimmer.strobe d) 0); [contradiction|].
  unfold bind at 1. unfold ret at 1.
  destruct (now >=? _); [|reflexivity].
  unfold toggled.
  destruct (Dimmer.next_transition d) eqn:En; simpl; rewrite En.
  - unfold bind.
    assert (Hinv' : Dimmer_inv (Dimmer.with_last_transition_time now d))
      by exact Hinv.
    pose proof (Dimmer_inv_index _ hw Hinv') as Hidx. simpl in Hidx.
    rewrite Hidx. simpl. rewrite En. reflexivity.
  - run. rewrite En. reflexivity.
Qed.

Lemma toggled_inv (now : Z) (d : Dimmer.t) : Dimmer_inv d -> Dimmer_inv (toggled now d).
Proof. intros H. exact H. Qed.

Lemma set_dim_range (value : Z) (d : Dimmer.t) :
  0 <= Dimmer.dim (Dimmer.set_dim value d) <= 255.
Proof.
  unfold Dimmer.set_dim. simpl.
  destruct (Z.ltb_spec value 0); simpl.
  - lia.
  - destruct (Z.gtb_spec value 255); lia.
Qed.

Lemma set_dim_inv (value : Z) (d : Dimmer.t) :
  Dimmer_inv d -> Dimmer_inv (Dimmer.set_dim value d).
Proof.
  intros (_ & Hs & Hl).
  split; [apply set_dim_range|]. split; [exact Hs|exact Hl].
Qed.

Lemma set_strobe_inv (frequency : Z) (d : Dimmer.t) (hw : Hw) d' hw' :
  Dimmer_inv d -> Dimmer.set_strobe frequency d hw = Ok (d', hw') ->
  Dimmer_inv d'.
Proof.
  intros (Hd & Hs & Hl) Hset.
  destruct (set_strobe_result frequency d hw)
    as (d1 & hw1 & Hset1 & Hs1 & Hd1 & Hl1 & _).
  rewrite Hset in Hset1. injection Hset1 as <- <-.
  unfold Dimmer_inv. rewrite Hs1, Hd1, Hl1.
  split; [exact Hd|]. split; [lia|exact Hl].
Qed.

Lemma Dimmer_update_preserves now d hw d' hw' :
  Dimmer_inv d -> Dimmer.update now d hw = Ok (d', hw') -> Dimmer_inv d'.
Proof.
  intros Hinv. destruct (Z.eq_dec (Dimmer.strobe d) 0) as [Hs|Hs].
  - rewrite Dimmer_update_steady by assumption.
    case_decide; intros Heq; injection Heq as <- <-; exact Hinv.
  - assert (Hsome : forall n h, Dimmer.update (Some n) d h = Ok (d', hw') ->
                                Dimmer_inv d').
    { intros n h. rewrite Dimmer_update_strobing by assumption.
      destruct (n >=? _); intros H; injection H as <- <-; exact Hinv. }
    destruct now as [n|]; [apply Hsome|].
    unfold Dimmer.update.
    destruct (Z.eqb_spec (Dimmer.strobe d) 0); [contradiction|].
    unfold bind at 1. unfold time_monotonic_ns at 1.
    intros H. eapply (Hsome (monotonic_ns hw (ns_reads hw))).
    unfold Dimmer.update.
    destruct (Z.eqb_spec (Dimmer.strobe d) 0); [contradiction|].
    unfold bind at 1. unfold ret at 1. exact H.
Qed.

(** The table the constructor builds: one entry per intensity 0..255, the
    entry for [i] being the constructor's expression at [i]. *)
Lemma Dimmer_init_result pwmout gamma_entry hw d hw' :
  Dimmer.__init__ pwmout gamma_entry hw = Ok (d, hw') ->
  length (Dimmer.linear_to_gamma d) = 256%nat /\
  (forall i : Z, 0 <= i <= 255 -> gamma d i = gamma_entry i) /\
  Dimmer.dim d = 0 /\ Dimmer.strobe d = 0 /\
  hw' = appended [PwmWrite pwmout 0] hw.
Proof.
  unfold Dimmer.__init__.
  remember (map (fun i => gamma_entry (Z.of_nat i))
              (seq 0 (Z.to_nat (Dimmer.max_in + 1)))) as table eqn:Et.
  unfold bind, emit, ret. intros H. injection H as <- <-.
  cbn [Dimmer.dim Dimmer.strobe Dimmer.linear_to_gamma]. unfold gamma.
  cbn [Dimmer.linear_to_gamma]. subst table.
  change (Z.to_nat (Dimmer.max_in + 1)) with 256%nat.
  split; [rewrite length_map, length_seq; reflexivity|].
  split; [|auto].
  intros i Hi.
  change (map (fun i => gamma_entry (Z.of_nat i)) (seq 0 256))
    with ((fun i => gamma_entry (Z.of_nat i)) <$> seq 0 256).
  rewrite list_lookup_fmap, lookup_seq_lt by lia. simpl.
  rewrite Z2Nat.id by lia. reflexivity.
Qed.

(** The table is non-decreasing whenever the constructor's expression is. *)
Lemma Dimmer_init_monotone pwmout gamma_entry hw d hw' :
  Dimmer.__init__ pwmout gamma_entry hw = Ok (d, hw') ->
  (forall i : Z, 0 <= i < 255 -> gamma_entry i <= gamma_entry (i + 1)) ->
  forall i : Z, 0 <= i < 255 -> gamma d i <= gamma d (i + 1).
Proof.
  intros Hinit Hmono i Hi.
  destruct (Dimmer_init_result _ _ _ _ _ Hinit) as (_ & Hentry & _).
  rewrite !Hentry by lia. apply Hmono. exact Hi.
Qed.

Lemma Dimmer_reach_inv (d : Dimmer.t) : Dimmer_reach d -> Dimmer_inv d.
Proof.
  induction 1 as [pwmout gamma_entry hw d hw' Hinit|value d _ IH
                 |frequency d hw d' hw' _ IH Hset|d _ IH|d _ IH
                 |now d hw d' hw' _ IH Hup].
  - destruct (Dimmer_init_result _ _ _ _ _ Hinit) as (Hl & _ & Hd & Hs & _).
    unfold Dimmer_inv. rewrite Hd, Hs, Hl.
    split; [lia|]. split; [lia|reflexivity].
  - apply set_dim_inv, IH.
  - eapply set_strobe_inv; eassumption.
  - exact IH.
  - exact IH.
  - eapply Dimmer_update_preserves; eassumption.
Qed.

Lemma Dimmer_update_total (d : Dimmer.t) (now : option Z) (hw : Hw) :
  Dimmer_inv d -> exists d' hw', Dimmer.update now d hw = Ok (d', hw').
Proof.
  intros Hinv. destruct (Z.eq_dec (Dimmer.strobe d) 0) as [Hs|Hs].
  - rewrite Dimmer_update_steady by assumption. case_decide; eauto.
  - assert (Hsome : forall n h, exists d' hw',
               Dimmer.update (Some n) d h = Ok (d', hw')).
    { intros n h. rewrite Dimmer_update_strobing by assumption.
      destruct (n >=? _); eauto. }
    destruct now as [n|]; [apply Hsome|].
    destruct (Hsome (monotonic_ns hw (ns_reads hw))
                (mkHw (trace hw) (S (ns_reads hw)) (monotonic_ns hw)
                   (s_reads hw) (monotonic hw) (playing hw) (fell hw)
                   (float hw)))
      as (d' & hw' & H).
    exists d', hw'. rewrite <- H. unfold Dimmer.update.
    destruct (Z.eqb_spec (Dimmer.strobe d) 0); [contradiction|].
    reflexivity.
Qed.

Lemma Flicker_set_dim_range (value : Z) (f : Flicker.t) :
  0 <= Flicker.dim (Flicker.set_dim value f) <= 5.
Proof.
  unfold Flicker.set_dim. simpl.
  destruct (Z.ltb_spec value 0); simpl.
  - lia.
  - destruct (Z.gtb_spec value 5); lia.
Qed.

Lemma Flicker_reach_range (seed : Z) (f : Flicker.t) :
  Flicker_reach seed f -> 0 <= Flicker.dim f <= 5.
Proof.
  induction 1 as [pwmout|value f _ IH|f _ IH|f _ IH|now f hw f' v hw' _ IH Hup];
    try exact IH.
  - simpl. lia.
  - apply Flicker_set_dim_range.
  - destruct (Flicker_update_inv _ _ _ _ _ _ Hup) as (_ & -> & _). exact IH.
Qed.

Lemma Flicker_update_total (f : Flicker.t) (now : option Z) (hw : Hw) :
  0 <= Flicker.dim f <= 5 ->
  exists f' v hw', Flicker.update now f hw = Ok ((f', v), hw').
Proof.
  intros Hdim. unfold Flicker.update.
  destruct now as [now|]; run.
  all: match goal with |- context [?a >=? ?b] => destruct (a >=? b) end;
    [|eauto].
  all: destruct (Flicker.dim f =? 0); run; [eauto|].
  all: destruct (Z.ltb_spec (6 - Flicker.dim f) 0); [lia|]; run; eauto.
Qed.

(** The setters store the value of the range nearest to their argument. *)
Lemma set_dim_nearest (value : Z) (d : Dimmer.t) :
  Dimmer.dim (Dimmer.set_dim value d) = Z.max 0 (Z.min 255 value).
Proof.
  unfold Dimmer.set_dim. simpl.
  destruct (Z.ltb_spec value 0); simpl.
  - lia.
  - destruct (Z.gtb_spec value 255); lia.
Qed.

Lemma Flicker_set_dim_nearest (value : Z) (f : Flicker.t) :
  Flicker.dim (Flicker.set_dim value f) = Z.max 0 (Z.min 5 value).
Proof.
  unfold Flicker.set_dim. simpl.
  destruct (Z.ltb_spec value 0); simpl.
  - lia.
  - destruct (Z.gtb_spec value 5); lia.
Qed.

(** C4: a Dimmer's intensity stays in 0..255 and its strobe frequency in
    0..1400 whatever integers the setters are given, a Flicker's intensity
    stays in 0..5; the dimmer's table index is always in bounds, and
    [update] of an effect never raises, in any state the effect can reach
    and for any [now] argument and hardware state.  Each setter stores the
    value of its range nearest to the integer it is given (the argument
    itself when in range, else the bound on its side) and leaves the other
    setting as it was. *)
Theorem effect_update_never_faults (e : Effect.t) :
  Effect_reach e ->
  Effect_in_range e /\
  gamma_index_in_bounds e /\
  (forall (now : option Z) (hw : Hw),
     exists e' hw', Effect.update now e hw = Ok (e', hw')) /\
  match e with
  | Effect.EDimmer d =>
      (forall value : Z,
         Dimmer.dim (Dimmer.set_dim value d) = Z.max 0 (Z.min 255 value) /\
         Dimmer.strobe (Dimmer.set_dim value d) = Dimmer.strobe d) /\
      (forall (frequency : Z) (hw : Hw),
         exists d' hw',
           Dimmer.set_strobe frequency d hw = Ok (d', hw') /\
           Dimmer.strobe d' = Z.max 0 (Z.min 1400 frequency) /\
           Dimmer.dim d' = Dimmer.dim d)
  | Effect.EFlicker f =>
      forall value : Z,
        Flicker.dim (Flicker.set_dim value f) = Z.max 0 (Z.min 5 value)
  end.
Proof.
  intros [d Hd|seed f Hf]; simpl.
  - pose proof (Dimmer_reach_inv d Hd) as Hinv.
    destruct Hinv as (Hdim & Hs & Hl).
    split; [split; assumption|]. split; [lia|]. split; [|split].
    + intros now hw.
      destruct (Dimmer_update_total d now hw) as (d' & hw' & H).
      { repeat split; assumption || lia. }
      exists (Effect.EDimmer d'), hw'. unfold bind. rewrite H. reflexivity.
    + intros value. split; [exact (set_dim_nearest value d)|reflexivity].
    + intros frequency hw.
      destruct (set_strobe_result frequency d hw)
        as (d' & hw' & Hset & Hs' & Hd' & _).
      exists d', hw'. split; [exact Hset|]. split; assumption.
  - pose proof (Flicker_reach_range seed f Hf) as Hdim.
    split; [exact Hdim|]. split; [exact I|]. split.
    + intros now hw.
      destruct (Flicker_update_total f now hw Hdim) as (f' & v & hw' & H).
      exists (Effect.EFlicker f'), hw'. unfold bind. rewrite H. reflexivity.
    + intros value. exact (Flicker_set_dim_nearest value f).
Qed.

Lemma dimmer_steady_reach : Dimmer_reach dimmer_steady.
Proof.
  apply (DR_enter (Dimmer.mk 16 200 0 0 0 0 true
                     (map (fun i => upscale (Z.of_nat i)) (seq 0 256))
                     (Some 0))).
  apply (DR_set_dim 200
           (Dimmer.mk 16 0 0 0 0 0 true
              (map (fun i => upscale (Z.of_nat i)) (seq 0 256)) (Some 0))).
  apply (DR_init 16 upscale idle_hw _ (appended [PwmWrite 16 0] idle_hw)).
  reflexivity.
Qed.

Lemma dimmer_strobing_reach : Dimmer_reach dimmer_strobing.
Proof.
  apply (DR_enter (Dimmer.mk 16 200 10 0 50000000 0 true
                     (map (fun i => upscale (Z.of_nat i)) (seq 0 256))
                     (Some 200))).
  apply (DR_set_strobe 10 (Dimmer.with_last_dim (Some 200) dimmer_steady)
           idle_hw _
           (appended [Stdout "Strobe transition period: 50000000"] idle_hw)).
  - apply (DR_update None dimmer_steady idle_hw _
             (appended [PwmWrite 16 51400] idle_hw)).
    + exact dimmer_steady_reach.
    + reflexivity.
  - reflexivity.
Qed.

Lemma effect_update_never_faults_witness :
  Effect_reach (Effect.EDimmer dimmer_strobing) /\
  Effect_in_range (Effect.EDimmer dimmer_strobing) /\
  gamma_index_in_bounds (Effect.EDimmer dimmer_strobing) /\
  (forall (now : option Z) (hw : Hw),
     exists e' hw', Effect.update now (Effect.EDimmer dimmer_strobing) hw
                    = Ok (e', hw')) /\
  (forall value : Z,
     Dimmer.dim (Dimmer.set_dim value dimmer_strobing)
     = Z.max 0 (Z.min 255 value) /\
     Dimmer.strobe (Dimmer.set_dim value dimmer_strobing) = 10) /\
  (forall (frequency : Z) (hw : Hw),
     exists d' hw',
       Dimmer.set_strobe frequency dimmer_strobing hw = Ok (d', hw') /\
       Dimmer.strobe d' = Z.max 0 (Z.min 1400 frequency) /\
       Dimmer.dim d' = 200).
Proof.
  split; [apply ER_dimmer, dimmer_strobing_reach|].
  apply (effect_update_never_faults (Effect.EDimmer dimmer_strobing)).
  apply ER_dimmer, dimmer_strobing_reach.
Defined.

(** ** The strobe *)





(** ** The steady dimmer *)

Lemma dims_seen_with_last_dim (steps : list (option Z)) (v : option Z) (d : Dimmer.t) :
  dims_seen steps (Dimmer.with_last_dim v d) = dims_seen steps d.
Proof.
  revert d. induction steps as [|[value|] rest IH]; intros d; simpl.
  - reflexivity.
  - f_equal. apply (IH (Dimmer.set_dim value d)).
  - f_equal. apply IH.
Qed.

Lemma steady_run_writes (steps : list (option Z)) (d : Dimmer.t) (hw : Hw) :
  Dimmer_inv d -> Dimmer.strobe d = 0 ->
  exists d',
    steady_run steps d hw
    = Ok (d', appended
                (map (fun v => PwmWrite (Dimmer.pwmout d) (gamma d v))
                   (changes (Dimmer.last_dim d) (dims_seen steps d))) hw).
Proof.
  revert d hw. induction steps as [|step rest IH]; intros d hw Hinv Hs.
  - exists d. simpl. rewrite appended_nil. reflexivity.
  - simpl steady_run. simpl dims_seen.
    set (d1 := match step with
               | Some value => Dimmer.set_dim value d
               | None => d
               end).
    assert (Hinv1 : Dimmer_inv d1)
      by (subst d1; destruct step; [apply set_dim_inv|]; exact Hinv).
    assert (Hs1 : Dimmer.strobe d1 = 0) by (subst d1; destruct step; exact Hs).
    assert (Hl1 : Dimmer.last_dim d1 = Dimmer.last_dim d)
      by (subst d1; destruct step; reflexivity).
    assert (Hp1 : Dimmer.pwmout d1 = Dimmer.pwmout d)
      by (subst d1; destruct step; reflexivity).
    assert (Hg1 : forall v, gamma d1 v = gamma d v)
      by (subst d1; destruct step; reflexivity).
    assert (Hw1 : forall v, PwmWrite (Dimmer.pwmout d1) (gamma d1 v)
                            = PwmWrite (Dimmer.pwmout d) (gamma d v))
      by (intros v; rewrite Hp1, Hg1; reflexivity).
    unfold bind. rewrite Dimmer_update_steady by assumption.
    simpl changes. rewrite <- Hl1.
    destruct (decide (Dimmer.last_dim d1 = Some (Dimmer.dim d1))) as [Heq|Hne].
    + destruct (IH d1 hw Hinv1 Hs1) as (d' & ->).
      exists d'. rewrite Heq, (map_ext _ _ Hw1). reflexivity.
    + destruct (IH (Dimmer.with_last_dim (Some (Dimmer.dim d1)) d1)
                  (appended [PwmWrite (Dimmer.pwmout d1)
                               (gamma d1 (Dimmer.dim d1))] hw)
                  Hinv1 Hs1) as (d' & ->).
      exists d'. rewrite dims_seen_with_last_dim, appended_app.
      simpl. rewrite Hw1. f_equal. f_equal. f_equal. f_equal.
      apply map_ext. exact Hw1.
Qed.

Lemma dims_seen_unchanged (n : nat) (d : Dimmer.t) :
  dims_seen (replicate n None) d = replicate n (Dimmer.dim d).
Proof. induction n as [|n IH]; simpl; [|rewrite IH]; reflexivity. Qed.

Lemma changes_unchanged (n : nat) (v : Z) :
  changes (Some v) (replicate n v) = [].
Proof.
  induction n as [|n IH]; simpl; [reflexivity|].
  rewrite decide_True by reflexivity. exact IH.
Qed.

(** C7: for a Dimmer with strobe 0, an [update] writes gamma(dim) to the PWM
    sink exactly when [dim] differs from the value last rendered (or
    [enter()] has invalidated that cache), and writes nothing otherwise;
    over any series of updates, with [dim] assigned or not before each, the
    writes are the gamma values of the intensities that differ from the one
    before them, so one write per distinct value; after [enter()], any
    number of updates with [dim] unchanged make exactly one write. *)
Theorem Dimmer_steady_writes_once (d : Dimmer.t) :
  Dimmer_reach d -> Dimmer.strobe d = 0 ->
  (forall (now : option Z) (hw : Hw),
     Dimmer.last_dim d = Some (Dimmer.dim d) ->
     Dimmer.update now d hw = Ok (d, hw)) /\
  (forall (now : option Z) (hw : Hw),
     Dimmer.last_dim d <> Some (Dimmer.dim d) ->
     Dimmer.update now d hw
     = Ok (Dimmer.with_last_dim (Some (Dimmer.dim d)) d,
           appended [PwmWrite (Dimmer.pwmout d) (gamma d (Dimmer.dim d))] hw)) /\
  (forall (steps : list (option Z)) (hw : Hw),
     exists d',
       steady_run steps d hw
       = Ok (d', appended
                   (map (fun v => PwmWrite (Dimmer.pwmout d) (gamma d v))
                      (changes (Dimmer.last_dim d) (dims_seen steps d))) hw)) /\
  (forall (n : nat) (hw : Hw),
     exists d',
       steady_run (replicate (S n) None) (Dimmer.enter d) hw
       = Ok (d', appended
                   [PwmWrite (Dimmer.pwmout d) (gamma d (Dimmer.dim d))] hw)).
Proof.
  intros Hreach Hs.
  pose proof (Dimmer_reach_inv d Hreach) as Hinv.
  split; [|split; [|split]].
  - intros now hw Heq. rewrite Dimmer_update_steady by assumption.
    rewrite decide_True by assumption. reflexivity.
  - intros now hw Hne. rewrite Dimmer_update_steady by assumption.
    rewrite decide_False by assumption. reflexivity.
  - intros steps hw. apply steady_run_writes; assumption.
  - intros n hw.
    destruct (steady_run_writes (replicate (S n) None) (Dimmer.enter d) hw
                Hinv Hs) as (d' & ->).
    exists d'. rewrite dims_seen_unchanged. simpl.
    rewrite changes_unchanged. reflexivity.
Qed.

Lemma Dimmer_steady_writes_once_witness :
  Dimmer_reach dimmer_steady /\ Dimmer.strobe dimmer_steady = 0 /\
  exists d',
    steady_run [None; None; None] (Dimmer.enter dimmer_steady) idle_hw
    = Ok (d', appended [PwmWrite 16 51400] idle_hw).
Proof.
  split; [exact dimmer_steady_reach|]. split; [reflexivity|].
  apply (Dimmer_steady_writes_once dimmer_steady dimmer_steady_reach
           eq_refl).
Defined.

(** ** The state machine *)

Lemma map_exit_id (effects : list Effect.t) : map Effect.exit effects = effects.
Proof.
  induction effects as [|e rest IH]; simpl; [reflexivity|].
  rewrite IH. destruct e; reflexivity.
Qed.

Lemma with_effects_same (s : State.t) :
  State.with_effects (State.effects s) s = s.
Proof. destruct s; reflexivity. Qed.

Ltac run_machine :=
  repeat (unfold StateMachine.go_to_state, StateMachine.exit_state,
            StateMachine.enter_state, StateMachine.update,
            bind, ret, raise, emit, log, TESTING, lift, deref, store,
            time_monotonic_ns, time_monotonic, i2s_playing, trigger_fell;
          simpl).

Lemma exit_state_ok (r : nat) (obj : ActorState) (w : World) :
  heap w !! r = Some obj -> playback_bound obj ->
  StateMachine.exit_state r w
  = Ok (tt, mkWorld (appended (exit_events obj) (hw w)) (heap w)).
Proof.
  intros Hr Hb. unfold StateMachine.exit_state, bind at 1, deref.
  rewrite Hr. destruct w as [h hp]. unfold exit_events. simpl in *.
  destruct obj as [s|s tf]; simpl in *.
  - unfold AmbientState.exit. rewrite map_exit_id.
    unfold State.exit. rewrite with_effects_same.
    destruct (State.wave s) as [wv|]; [destruct (State.i2s s) as [bus|]|].
    + run_machine. rewrite appended_app, insert_id by assumption. reflexivity.
    + destruct Hb as [? Hb]; [eauto|discriminate].
    + run_machine. rewrite insert_id by assumption. reflexivity.
  - unfold TriggeredState.exit. rewrite map_exit_id.
    unfold State.exit. rewrite with_effects_same.
    run_machine. rewrite insert_id by assumption. reflexivity.
Qed.

Lemma enter_state_ok (r : nat) (obj : ActorState) (w : World) :
  heap w !! r = Some obj -> playback_bound obj ->
  StateMachine.enter_state r w
  = Ok (tt, mkWorld (entered_hw obj (hw w))
              (<[r := entered obj (hw w)]> (heap w))).
Proof.
  intros Hr Hb. unfold StateMachine.enter_state, bind at 1, deref.
  rewrite Hr. destruct w as [h hp]. unfold entered_hw, enter_events.
  simpl in *.
  destruct obj as [s|s tf]; simpl in *.
  - unfold AmbientState.enter, State.enter.
    destruct (State.wave s) as [wv|]; [destruct (State.i2s s) as [bus|]|].
    + run_machine. rewrite appended_app. reflexivity.
    + destruct Hb as [? Hb]; [eauto|discriminate].
    + run_machine. reflexivity.
  - unfold TriggeredState.enter, State.enter.
    destruct Hb as [bus Hbus]. rewrite Hbus.
    run_machine. rewrite <- app_assoc. reflexivity.
Qed.

Lemma entered_bound (obj : ActorState) (h : Hw) :
  playback_bound obj -> playback_bound (entered obj h).
Proof. destruct obj; simpl; auto. Qed.

(** [go_to_state] with a registered name, when the active state and the
    target have their audio bound. *)
Lemma go_to_state_ok (m : StateMachine.t) (w : World) (state_name : string)
    (r : nat) (obj : ActorState) :
  (forall r0, StateMachine.state m = Some r0 ->
     exists obj0, heap w !! r0 = Some obj0 /\ playback_bound obj0) ->
  StateMachine.states m !! state_name = Some r ->
  heap w !! r = Some obj -> playback_bound obj ->
  let h := appended (leave_events m w) (hw w) in
  StateMachine.go_to_state state_name m w
  = Ok (StateMachine.mk (Some r) (StateMachine.states m),
        mkWorld (entered_hw obj h) (<[r := entered obj h]> (heap w))).
Proof.
  intros Hact Hname Hr Hb h. subst h.
  unfold StateMachine.go_to_state, leave_events. rewrite Hname.
  destruct (StateMachine.state m) as [r0|] eqn:Hst.
  - destruct (Hact r0 eq_refl) as (obj0 & Hr0 & Hb0). rewrite Hr0.
    unfold bind at 1. rewrite (exit_state_ok r0 obj0 w Hr0 Hb0).
    unfold bind at 1. unfold ret at 1.
    unfold bind at 1.
    rewrite (enter_state_ok r obj
               (mkWorld (appended (exit_events obj0) (hw w)) (heap w)) Hr Hb).
    reflexivity.
  - unfold bind at 1. unfold ret at 1.
    unfold bind at 1. unfold ret at 1.
    unfold bind at 1.
    rewrite (enter_state_ok r obj w Hr Hb).
    rewrite appended_nil. reflexivity.
Qed.

(** ** The transition protocol *)

(** C1: with 'triggered' registered and the ambient state active,
    [go_to_state('triggered')] is exactly the ambient state's [exit]
    followed by the triggered state's [enter], each after its log line, the
    hardware passing from the one to the other; with the audio bound it
    returns, and the events of the exit precede those of the enter.  With no
    active state, [update()] does nothing and returns. *)
Theorem go_to_state_exits_then_enters (m : StateMachine.t) (w : World) :
  (forall (ra rt : nat) (a t : State.t) (tf : Q),
     StateMachine.state m = Some ra ->
     heap w !! ra = Some (Ambient a) ->
     StateMachine.states m !! "triggered" = Some rt ->
     heap w !! rt = Some (Triggered t tf) ->
     StateMachine.go_to_state "triggered" m w =
     (lift (log "Exiting ambient") ;;
      a' <- lift (AmbientState.exit a) ;;
      store ra (Ambient a') ;;
      lift (log "Entering triggered") ;;
      t' <- lift (TriggeredState.enter t tf) ;;
      store rt (Triggered (fst t') (snd t')) ;;
      ret (StateMachine.mk (Some rt) (StateMachine.states m))) w /\
     (playback_bound (Ambient a) -> playback_bound (Triggered t tf) ->
      exists w',
        StateMachine.go_to_state "triggered" m w
        = Ok (StateMachine.mk (Some rt) (StateMachine.states m), w') /\
        trace (hw w')
        = trace (hw w) ++ exit_events (Ambient a)
            ++ enter_events (Triggered t tf))) /\
  (StateMachine.state m = None -> StateMachine.update m w = Ok (m, w)).
Proof.
  split.
  - intros ra rt a t tf Hst Hra Hreg Hrt.
    assert (Hne : ra <> rt) by (intros ->; congruence).
    split.
    + unfold StateMachine.go_to_state. rewrite Hst, Hreg.
      run_machine. rewrite Hra. simpl.
      destruct (AmbientState.exit a _) as [[a' hw1]|f]; simpl; [|reflexivity].
      rewrite lookup_insert_ne by exact Hne. rewrite Hrt. simpl.
      destruct (TriggeredState.enter t tf _) as [[t' hw2]|f]; reflexivity.
    + intros Hba Hbt.
      rewrite (go_to_state_ok m w "triggered" rt (Triggered t tf));
        try assumption.
      * eexists. split; [reflexivity|].
        unfold leave_events. rewrite Hst, Hra. simpl.
        rewrite <- app_assoc. reflexivity.
      * intros r0 Hr0. rewrite Hst in Hr0. injection Hr0 as <-.
        exists (Ambient a). split; assumption.
  - intros Hst. unfold StateMachine.update. rewrite Hst. reflexivity.
Qed.

Lemma go_to_state_exits_then_enters_witness :
  exists w',
    StateMachine.go_to_state "triggered" stage_machine stage_world
    = Ok (StateMachine.mk (Some 1%nat) stage_states, w') /\
    trace (hw w')
    = [Stdout "Exiting ambient"; Stdout "Entering triggered";
       I2sPlay 0 (Some "/sd/001.wav") false].
Proof.
  apply (proj1 (go_to_state_exits_then_enters stage_machine stage_world)
           0%nat 1%nat stage_ambient stage_triggered 0%Q
           eq_refl eq_refl eq_refl eq_refl).
  - simpl. intros [? H]. discriminate.
  - simpl. eauto.
Defined.

(** Faults of the pieces: none of them is a [KeyError]. *)
Lemma py_index_fault {S A} (l : list A) (i : Z) (s : S) f :
  py_index l i s = Raise f -> f = IndexError.
Proof.
  unfold py_index. destruct (_ <? 0); [intros H; injection H; auto|].
  destruct (l !! _); [discriminate|]. intros H; injection H; auto.
Qed.

Lemma Dimmer_update_fault now d hw f :
  Dimmer.update now d hw = Raise f -> f = IndexError.
Proof.
  unfold Dimmer.update.
  destruct (Dimmer.strobe d =? 0).
  - destruct (match Dimmer.last_dim d with
              | Some last => negb (last =? Dimmer.dim d)
              | None => true
              end); [|discriminate].
    unfold bind at 1.
    destruct (py_index _ _ hw) as [[v hw1]|f0] eqn:E.
    + discriminate.
    + intros H. injection H as <-. eapply py_index_fault. exact E.
  - destruct now as [now|]; unfold bind at 1; simpl.
    all: match goal with |- context [?a >=? ?b] => destruct (a >=? b) end;
      [|discriminate].
    all: destruct (Dimmer.next_transition d); simpl; [|discriminate].
    all: unfold bind at 1; unfold bind at 1.
    all: match goal with
         | |- context [py_index ?l ?i ?h] =>
             destruct (py_index l i h) as [[v hw1]|f0] eqn:E
         end; [discriminate|].
    all: intros H; injection H as <-; eapply py_index_fault; exact E.
Qed.

Lemma Flicker_update_fault now fl hw f :
  Flicker.update now fl hw = Raise f -> f = ValueError.
Proof.
  unfold Flicker.update.
  destruct now as [now|]; run.
  all: match goal with |- context [?a >=? ?b] => destruct (a >=? b) end;
    [|discriminate].
  all: destruct (Flicker.dim fl =? 0); run; [discriminate|].
  all: destruct (6 - Flicker.dim fl <? 0); run; [|discriminate].
  all: intros H; injection H; auto.
Qed.

Lemma update_all_fault now effects hw f :
  Effect.update_all now effects hw = Raise f -> ~ is_KeyError f.
Proof.
  revert hw. induction effects as [|e rest IH]; intros hw; simpl.
  - discriminate.
  - unfold bind at 1.
    destruct (Effect.update now e hw) as [[e' hw1]|f0] eqn:E.
    + unfold bind at 1.
      destruct (Effect.update_all now rest hw1) as [[rest' hw2]|f1] eqn:E1.
      * discriminate.
      * intros H. injection H as <-. eapply IH. exact E1.
    + intros H. injection H as <-.
      destruct e as [d|fl]; simpl in E; unfold bind in E.
      * destruct (Dimmer.update now d hw) as [[d' hw1]|f1] eqn:Ed;
          [discriminate|].
        injection E as <-. rewrite (Dimmer_update_fault _ _ _ _ Ed). simpl. tauto.
      * destruct (Flicker.update now fl hw) as [[r hw1]|f1] eqn:Ef;
          [discriminate|].
        injection E as <-. rewrite (Flicker_update_fault _ _ _ _ Ef). simpl. tauto.
Qed.

Lemma exit_state_fault r w f :
  StateMachine.exit_state r w = Raise f -> ~ is_KeyError f.
Proof.
  unfold StateMachine.exit_state, AmbientState.exit, TriggeredState.exit.
  run_machine.
  destruct (heap w !! r) as [[s|s tf]|]; simpl.
  - destruct (State.wave s); [destruct (State.i2s s)|]; simpl;
      try discriminate.
    intros H. injection H as <-. simpl. tauto.
  - discriminate.
  - intros H. injection H as <-. simpl. tauto.
Qed.

Lemma enter_state_fault r w f :
  StateMachine.enter_state r w = Raise f -> ~ is_KeyError f.
Proof.
  unfold StateMachine.enter_state, AmbientState.enter, TriggeredState.enter.
  run_machine.
  destruct (heap w !! r) as [[s|s tf]|]; simpl.
  - destruct (State.wave s); [destruct (State.i2s s)|]; simpl;
      try discriminate.
    intros H. injection H as <-. simpl. tauto.
  - destruct (State.i2s s); simpl; [discriminate|].
    intros H. injection H as <-. simpl. tauto.
  - intros H. injection H as <-. simpl. tauto.
Qed.

Lemma go_to_state_fault (m : StateMachine.t) (w : World) (state_name : string) f :
  is_Some (StateMachine.states m !! state_name) ->
  StateMachine.go_to_state state_name m w = Raise f -> ~ is_KeyError f.
Proof.
  intros [r Hr]. unfold StateMachine.go_to_state. rewrite Hr.
  unfold bind at 1.
  destruct (match StateMachine.state m with
            | Some r0 => StateMachine.exit_state r0
            | None => ret ()
            end w) as [[[] w1]|f0] eqn:E.
  - unfold bind at 1. unfold ret at 1. unfold bind at 1.
    destruct (StateMachine.enter_state r w1) as [[[] w2]|f1] eqn:E1.
    + discriminate.
    + intros H. injection H as <-. eapply enter_state_fault. exact E1.
  - intros H. injection H as <-.
    destruct (StateMachine.state m) as [r0|]; [|discriminate].
    eapply exit_state_fault. exact E.
Qed.

Lemma go_to_state_unregistered (m : StateMachine.t) (w : World) (state_name : string) :
  StateMachine.states m !! state_name = None ->
  exists f, StateMachine.go_to_state state_name m w = Raise f /\
            ((exists w1, match StateMachine.state m with
                         | Some r0 => StateMachine.exit_state r0
                         | None => ret ()
                         end w = Ok (tt, w1)) -> f = KeyError state_name).
Proof.
  intros Hr. unfold StateMachine.go_to_state. rewrite Hr.
  unfold bind at 1.
  destruct (match StateMachine.state m with
            | Some r0 => StateMachine.exit_state r0
            | None => ret ()
            end w) as [[[] w1]|f0] eqn:E.
  - exists (KeyError state_name). split; [reflexivity|auto].
  - exists f0. split; [reflexivity|]. intros [w1 Hw1]. discriminate.
Qed.

Lemma update_fault (m : StateMachine.t) (w : World) f :
  is_Some (StateMachine.states m !! "ambient") ->
  is_Some (StateMachine.states m !! "triggered") ->
  StateMachine.update m w = Raise f -> ~ is_KeyError f.
Proof.
  intros Ha Ht. unfold StateMachine.update.
  destruct (StateMachine.state m) as [r|]; [|discriminate].
  unfold bind at 1, deref.
  destruct (heap w !! r) as [[s|s tf]|]; simpl.
  - unfold AmbientState.update, State.update.
    unfold bind at 1. unfold bind at 1. unfold lift at 1. simpl.
    unfold bind at 1. unfold lift at 1.
    destruct (Effect.update_all _ _ _) as [[effects' hw1]|f0] eqn:E.
    + unfold store at 1. unfold bind at 1. unfold lift at 1. simpl.
      destruct (fell hw1); [|discriminate].
      apply go_to_state_fault. exact Ht.
    + intros H. injection H as <-. eapply update_all_fault. exact E.
  - unfold TriggeredState.update, State.update.
    unfold bind at 1.
    destruct (State.i2s s) as [bus|].
    + unfold lift at 1. simpl.
      destruct (playing (hw w) bus); simpl.
      * unfold bind at 1. unfold bind at 1. unfold lift at 1. simpl.
        unfold bind at 1. unfold lift at 1.
        destruct (Effect.update_all _ _ _) as [[effects' hw1]|f0] eqn:E.
        -- discriminate.
        -- intros H. injection H as <-. eapply update_all_fault. exact E.
      * apply go_to_state_fault. exact Ha.
    + intros H. injection H as <-. simpl. tauto.
  - intros H. injection H as <-. simpl. tauto.
Qed.

(** C10: [go_to_state] with a name that is not registered always faults,
    and the fault is the lookup's [KeyError] (the specification's
    UnknownState) whenever leaving the active state did not fault first, in
    particular on every well-formed machine; with a registered name it
    never raises that fault, and on a well-formed machine it returns.  A
    machine with both 'ambient' and 'triggered' registered never raises it
    from [update], whose only requests are those two names. *)
Theorem go_to_state_unknown_state (m : StateMachine.t) (w : World)
    (state_name : string) :
  (StateMachine.states m !! state_name = None ->
   (exists f, StateMachine.go_to_state state_name m w = Raise f) /\
   (machine_ok m w ->
    StateMachine.go_to_state state_name m w = Raise (KeyError state_name))) /\
  (is_Some (StateMachine.states m !! state_name) ->
   (forall f, StateMachine.go_to_state state_name m w = Raise f ->
              ~ is_KeyError f) /\
   (machine_ok m w ->
    exists m' w', StateMachine.go_to_state state_name m w = Ok (m', w'))) /\
  (is_Some (StateMachine.states m !! "ambient") ->
   is_Some (StateMachine.states m !! "triggered") ->
   forall f, StateMachine.update m w = Raise f -> ~ is_KeyError f).
Proof.
  split; [|split].
  - intros Hnone.
    destruct (go_to_state_unregistered m w state_name Hnone) as (f & Hf & Hkey).
    split; [exists f; exact Hf|].
    intros [Hact _]. rewrite Hf. f_equal. apply Hkey.
    destruct (StateMachine.state m) as [r0|] eqn:Hst.
    + destruct (Hact r0 eq_refl) as (obj0 & Hr0 & Hb0).
      rewrite (exit_state_ok r0 obj0 w Hr0 Hb0). eauto.
    + exists w. reflexivity.
  - intros Hsome. split.
    + intros f. apply go_to_state_fault. exact Hsome.
    + intros [Hact Hreg]. destruct Hsome as [r Hr].
      destruct (Hreg _ _ Hr) as (obj & Hobj & Hb).
      rewrite (go_to_state_ok m w state_name r obj Hact Hr Hobj Hb). eauto.
  - intros Ha Ht f. apply update_fault; assumption.
Qed.

Lemma stage_machine_ok : machine_ok stage_machine stage_world.
Proof.
  split.
  - intros r Hr. injection Hr as <-.
    exists (Ambient stage_ambient). split; [reflexivity|].
    simpl. intros [? H]. discriminate.
  - intros key r Hr. unfold stage_machine, stage_states in Hr. simpl in Hr.
    apply lookup_insert_Some in Hr as [[<- <-]|[_ Hr]].
    + exists (Triggered stage_triggered 0%Q). split; [reflexivity|].
      simpl. eauto.
    + apply lookup_insert_Some in Hr as [[<- <-]|[_ Hr]].
      * exists (Ambient stage_ambient). split; [reflexivity|].
        simpl. intros [? H]. discriminate.
      * rewrite lookup_empty in Hr. discriminate.
Qed.

Lemma go_to_state_unknown_state_witness :
  StateMachine.states stage_machine !! "nowhere" = None /\
  machine_ok stage_machine stage_world /\
  StateMachine.go_to_state "nowhere" stage_machine stage_world
  = Raise (KeyError "nowhere").
Proof.
  split; [reflexivity|]. split; [exact stage_machine_ok|].
  apply (go_to_state_unknown_state stage_machine stage_world "nowhere");
    [reflexivity|exact stage_machine_ok].
Defined.

(** ** A tick of the triggered state *)

Lemma Flicker_update_some (now : Z) (f : Flicker.t) (hw : Hw) :
  0 <= Flicker.dim f <= 5 ->
  exists f' v evs,
    Flicker.update (Some now) f hw = Ok ((f', v), appended evs hw).
Proof.
  intros Hdim. unfold Flicker.update. run.
  destruct (now >=? _).
  - destruct (Flicker.dim f =? 0); run.
    + do 3 eexists. reflexivity.
    + destruct (Z.ltb_spec (6 - Flicker.dim f) 0); [lia|]. run.
      do 3 eexists. reflexivity.
  - exists f, (Flicker.duty_cycle f), []. rewrite appended_nil. reflexivity.
Qed.

Lemma Effect_update_some (now : Z) (e : Effect.t) (hw : Hw) :
  Effect_reach e ->
  exists e' evs, Effect.update (Some now) e hw = Ok (e', appended evs hw).
Proof.
  intros [d Hd|seed f Hf]; simpl; unfold bind.
  - pose proof (Dimmer_reach_inv d Hd) as Hinv.
    destruct (Z.eq_dec (Dimmer.strobe d) 0) as [Hs|Hs].
    + rewrite Dimmer_update_steady by assumption.
      case_decide; [|eauto].
      exists (Effect.EDimmer d), []. rewrite appended_nil. reflexivity.
    + rewrite Dimmer_update_strobing by assumption.
      destruct (now >=? _); [eauto|].
      exists (Effect.EDimmer d), []. rewrite appended_nil. reflexivity.
  - destruct (Flicker_update_some now f hw (Flicker_reach_range seed f Hf))
      as (f' & v & evs & ->). eauto.
Qed.

Lemma update_all_some (now : Z) (effects : list Effect.t) (hw : Hw) :
  Forall Effect_reach effects ->
  exists effects' evs,
    Effect.update_all (Some now) effects hw = Ok (effects', appended evs hw) /\
    Forall2 (fun e e' => exists h h',
               Effect.update (Some now) e h = Ok (e', h')) effects effects'.
Proof.
  intros Hall. revert hw.
  induction Hall as [|e rest He _ IH]; intros hw; simpl.
  - exists [], []. rewrite appended_nil. split; [reflexivity|constructor].
  - destruct (Effect_update_some now e hw He) as (e' & evs & Hupd).
    destruct (IH (appended evs hw)) as (rest' & evs' & Hrest & Hall2).
    exists (e' :: rest'), (evs ++ evs').
    unfold bind at 1. rewrite Hupd.
    unfold bind at 1. rewrite Hrest. rewrite appended_app.
    split; [reflexivity|]. constructor; [eauto|exact Hall2].
Qed.

(** C8: when the playback channel is not playing at the start of
    [TriggeredState.update], the call is exactly the machine's transition to
    'ambient': the machine ends in the ambient state, no timestamp is
    sampled, nothing is written to a PWM sink and the triggered state's
    effects are as they were.  Otherwise one timestamp is sampled and every
    owned effect is updated with it. *)
Theorem TriggeredState_update_tick (m : StateMachine.t) (w : World)
    (self : nat) (s : State.t) (tf : Q) (bus : nat) :
  heap w !! self = Some (Triggered s tf) ->
  State.i2s s = Some bus ->
  (playing (hw w) bus = false ->
   TriggeredState.update StateMachine.go_to_state self s tf m w
   = StateMachine.go_to_state "ambient" m w /\
   forall (ra : nat) (a : State.t),
     StateMachine.state m = Some self ->
     StateMachine.states m !! "ambient" = Some ra ->
     heap w !! ra = Some (Ambient a) ->
     playback_bound (Ambient a) ->
     exists w',
       TriggeredState.update StateMachine.go_to_state self s tf m w
       = Ok (StateMachine.mk (Some ra) (StateMachine.states m), w') /\
       heap w' !! self = Some (Triggered s tf) /\
       ns_reads (hw w') = ns_reads (hw w) /\
       trace (hw w')
       = trace (hw w) ++ [Stdout "Exiting triggered"]
           ++ enter_events (Ambient a)) /\
  (playing (hw w) bus = true ->
   Forall Effect_reach (State.effects s) ->
   let now := monotonic_ns (hw w) (ns_reads (hw w)) in
   exists effects' hw',
     TriggeredState.update StateMachine.go_to_state self s tf m w
     = Ok (m, mkWorld hw'
                (<[self := Triggered (State.with_effects effects' s) tf]>
                   (heap w))) /\
     ns_reads hw' = S (ns_reads (hw w)) /\
     Forall2 (fun e e' => exists h h',
                Effect.update (Some now) e h = Ok (e', h'))
       (State.effects s) effects').
Proof.
  intros Hself Hbus. split.
  - intros Hplay.
    assert (Hgo : TriggeredState.update StateMachine.go_to_state self s tf m w
                  = StateMachine.go_to_state "ambient" m w).
    { unfold TriggeredState.update. rewrite Hbus.
      unfold bind at 1, lift at 1, i2s_playing. rewrite Hplay.
      destruct w; reflexivity. }
    split; [exact Hgo|].
    intros ra a Hst Hreg Hra Hb.
    assert (Hne : ra <> self) by (intros ->; congruence).
    rewrite Hgo.
    rewrite (go_to_state_ok m w "ambient" ra (Ambient a)); try assumption.
    + eexists. split; [reflexivity|]. simpl.
      rewrite lookup_insert_ne by exact Hne.
      split; [exact Hself|]. split; [reflexivity|].
      unfold leave_events. rewrite Hst, Hself. simpl.
      rewrite <- app_assoc. reflexivity.
    + intros r0 Hr0. rewrite Hst in Hr0. injection Hr0 as <-.
      exists (Triggered s tf). split; [exact Hself|]. simpl. eauto.
  - intros Hplay Hall now.
    destruct (update_all_some now (State.effects s)
                (mkHw (trace (hw w)) (S (ns_reads (hw w))) (monotonic_ns (hw w))
                   (s_reads (hw w)) (monotonic (hw w)) (playing (hw w))
                   (fell (hw w)) (float (hw w))) Hall)
      as (effects' & evs & Hupd & Hall2).
    exists effects'. eexists. split; [|split; [|exact Hall2]].
    + unfold TriggeredState.update. rewrite Hbus.
      unfold bind at 1, lift at 1, i2s_playing. rewrite Hplay. simpl.
      unfold State.update.
      unfold bind at 1. unfold bind at 1. unfold bind at 1.
      unfold lift at 1, time_monotonic_ns. simpl.
      unfold lift at 1. cbn [hw heap]. fold now. rewrite Hupd. reflexivity.
    + reflexivity.
Qed.

Lemma TriggeredState_update_tick_witness :
  heap stage_world !! 1%nat = Some (Triggered stage_triggered 0%Q) /\
  State.i2s stage_triggered = Some 0%nat /\
  TriggeredState.update StateMachine.go_to_state 1 stage_triggered 0%Q
    stage_machine_triggered stage_world
  = StateMachine.go_to_state "ambient" stage_machine_triggered stage_world.
Proof.
  split; [reflexivity|]. split; [reflexivity|].
  apply (TriggeredState_update_tick stage_machine_triggered stage_world 1
           stage_triggered 0%Q 0 eq_refl eq_refl).
  reflexivity.
Defined.

(** The value a flicker renders fits the 16-bit PWM sink. *)
Lemma Flicker_scaled_range (duty state k : Z) :
  0 <= duty <= 65535 -> 0 <= k ->
  0 <= Z.shiftr (duty - Z.shiftr duty 1
                 + Z.shiftl (if negb (Z.land state 0x100 =? 0) then 255
                             else Z.land state 255) 7) k <= 65535.
Proof.
  intros Hd Hk.
  set (nv := if negb (Z.land state 0x100 =? 0) then 255 else Z.land state 255).
  assert (Hnv : 0 <= nv <= 255).
  { subst nv. destruct (negb _); [lia|].
    change 255 with (Z.ones 8). rewrite Z.land_ones by lia.
    pose proof (Z.mod_pos_bound state (2 ^ 8) ltac:(lia)).
    change (2 ^ 8) with 256 in *. change (Z.ones 8) with 255. lia. }
  rewrite (Z.shiftr_div_pow2 duty 1), Z.shiftl_mul_pow2 by lia.
  change (2 ^ 1) with 2. change (2 ^ 7) with 128.
  pose proof (Z.div_mod duty 2 ltac:(lia)).
  pose proof (Z.mod_pos_bound duty 2 ltac:(lia)).
  set (x := duty - duty / 2 + nv * 128).
  assert (Hx : 0 <= x <= 65535) by (subst x; lia).
  rewrite Z.shiftr_div_pow2 by lia.
  assert (Hp : 0 < 2 ^ k) by (apply Z.pow_pos_nonneg; lia).
  split.
  - apply Z.div_pos; lia.
  - pose proof (Z.div_le_upper_bound x (2 ^ k) x Hp ltac:(nia)). lia.
Qed.

Lemma Flicker_update_pwm_range now f hw f' v hw' :
  0 <= Flicker.dim f <= 5 -> 0 <= Flicker.duty_cycle f <= 65535 ->
  Flicker.update now f hw = Ok ((f', v), hw') ->
  0 <= v <= 65535 /\ 0 <= Flicker.duty_cycle f' <= 65535.
Proof.
  intros Hdim Hduty. unfold Flicker.update.
  destruct now as [now|]; run.
  all: match goal with |- context [?a >=? ?b] => destruct (a >=? b) end.
  all: try (intros H; injection H as <- <- <-; split; assumption).
  all: destruct (Flicker.dim f =? 0); run.
  all: try (intros H; injection H as <- <- <-; split; [lia|assumption]).
  all: destruct (Z.ltb_spec (6 - Flicker.dim f) 0) as [Hlt|Hge]; [lia|]; run.
  all: intros Heq; injection Heq as <- <- <-; simpl.
  all: split; apply Flicker_scaled_range; lia.
Qed.

Lemma Flicker_reach_pwm_range (seed : Z) (f : Flicker.t) :
  Flicker_reach seed f -> 0 <= Flicker.duty_cycle f <= 65535.
Proof.
  induction 1 as [pwmout|value f _ IH|f _ IH|f _ IH|now f hw f' v hw' Hf IH Hup];
    try exact IH.
  - simpl. lia.
  - eapply Flicker_update_pwm_range; [|exact IH|exact Hup].
    eapply Flicker_reach_range. exact Hf.
Qed.

(** ** Scenarios *)

(** The constructors build the stage. *)
Example stage_built :
  (r0 <- new (Ambient stage_ambient) ;;
   r1 <- new (Triggered stage_triggered 0%Q) ;;
   m <- StateMachine.add_state r0 StateMachine.__init__ ;;
   StateMachine.add_state r1 m) (mkWorld idle_hw ∅)
  = Ok (StateMachine.mk None stage_states, stage_world).
Proof. vm_compute. reflexivity. Qed.

(** Entering the ambient state and three ticks with [dim] unchanged: one
    write, of gamma(200). *)
Example ambient_three_ticks :
  observed
    ((m <- StateMachine.go_to_state "ambient"
            (StateMachine.mk None stage_states) ;;
      m <- StateMachine.update m ;;
      m <- StateMachine.update m ;;
      StateMachine.update m) stage_world)
  = Some (Some 0%nat, [Stdout "Entering ambient"; PwmWrite 16 51400]).
Proof. vm_compute. reflexivity. Qed.

(** The trigger falls: the tick leaves the ambient state and enters the
    triggered one, which starts the one-shot clip. *)
Example trigger_fell_tick :
  observed (StateMachine.update stage_machine (trigger_falls stage_world))
  = Some (Some 1%nat,
          [PwmWrite 16 51400; Stdout "Exiting ambient";
           Stdout "Entering triggered";
           I2sPlay 0 (Some "/sd/001.wav") false]).
Proof. vm_compute. reflexivity. Qed.

(** While the clip plays a tick of the triggered state renders its
    flicker; once it has ended the tick returns to the ambient state and
    renders nothing. *)
Example triggered_tick_playing :
  observed (StateMachine.update stage_machine_triggered
              (mkWorld playing_hw stage_heap))
  = Some (Some 1%nat, [PwmWrite 16 18864]).
Proof. vm_compute. reflexivity. Qed.

Example triggered_tick_finished :
  observed (StateMachine.update stage_machine_triggered stage_world)
  = Some (Some 0%nat, [Stdout "Exiting triggered"; Stdout "Entering ambient"]).
Proof. vm_compute. reflexivity. Qed.

(** * Further properties *)

(** ** upscale *)

(** X1: on an 8-bit value [upscale] repeats the byte: the result is
    [257 * x], fits 16 bits, and both its high and its low byte are [x];
    so 0 maps to 0, 255 to 65535, and the map is strictly increasing. *)
Theorem upscale_repeats_byte (x : Z) :
  0 <= x <= 255 ->
  upscale x = 257 * x /\
  0 <= upscale x <= 65535 /\
  Z.shiftr (upscale x) 8 = x /\
  Z.land (upscale x) 255 = x.
Proof.
  intros Hx. unfold upscale.
  rewrite Z.shiftl_mul_pow2 by lia. change (2 ^ 8) with 256.
  split; [lia|]. split; [lia|]. split.
  - rewrite Z.shiftr_div_pow2 by lia. change (2 ^ 8) with 256.
    rewrite Z.div_add_l by lia. rewrite Z.div_small by lia. lia.
  - change 255 with (Z.ones 8). rewrite Z.land_ones by lia.
    change (2 ^ 8) with 256.
    rewrite Z.add_comm, Z.mod_add by lia. apply Z.mod_small. lia.
Qed.

Lemma upscale_repeats_byte_witness :
  0 <= 0xAB <= 255 /\ upscale 0xAB = 0xABAB.
Proof.
  split; [lia|].
  destruct (upscale_repeats_byte 0xAB ltac:(lia)) as (H & _).
  rewrite H. reflexivity.
Defined.

(** ** The strobe alternates *)

Lemma strobe_run_alternates (nows : list Z) (d : Dimmer.t) (hw : Hw) :
  Dimmer_inv d -> Dimmer.strobe d <> 0 ->
  exists ts d',
    strobe_run nows d hw
    = Ok (ts, d',
          appended (strobe_writes (Dimmer.pwmout d) (gamma d (Dimmer.dim d))
                      (Dimmer.next_transition d) (length ts)) hw) /\
    Dimmer.dim d' = Dimmer.dim d /\
    Dimmer.next_transition d'
    = Nat.iter (length ts) negb (Dimmer.next_transition d).
Proof.
  revert d hw. induction nows as [|now rest IH]; intros d hw Hinv Hs.
  - exists [], d. simpl. rewrite appended_nil. auto.
  - simpl strobe_run. rewrite Dimmer_update_strobing by assumption.
    destruct (now >=? _).
    + destruct (IH (toggled now d)
                  (appended [PwmWrite (Dimmer.pwmout d)
                               (if Dimmer.next_transition d
                                then gamma d (Dimmer.dim d) else 0)] hw)
                  (toggled_inv now d Hinv) Hs) as (ts & d' & -> & Hdim & Hnext).
      exists (now :: ts), d'.
      cbn [trace appended]. rewrite length_app. cbn [length].
      replace (length (trace hw) + 1 =? length (trace hw))%nat with false
        by (symmetry; apply Nat.eqb_neq; lia).
      cbn [negb]. rewrite appended_app.
      split; [reflexivity|]. split; [exact Hdim|].
      rewrite Hnext. cbn [toggled Dimmer.next_transition length].
      rewrite Nat.iter_succ_r. reflexivity.
    + destruct (IH d hw Hinv Hs) as (ts & d' & -> & Hdim & Hnext).
      exists ts, d'. rewrite Nat.eqb_refl. cbn [negb]. auto.
Qed.

(** X2: the writes of a strobing Dimmer alternate between gamma(dim) and 0
    over any series of updates (with [dim] left alone), starting with the
    pending phase; after [enter()] the first write is the lit one. *)
Theorem Dimmer_strobe_alternates (d : Dimmer.t) :
  Dimmer_reach d -> Dimmer.strobe d > 0 ->
  (forall (nows : list Z) (hw : Hw),
     exists ts d',
       strobe_run nows d hw
       = Ok (ts, d',
             appended (strobe_writes (Dimmer.pwmout d)
                         (gamma d (Dimmer.dim d))
                         (Dimmer.next_transition d) (length ts)) hw)) /\
  (forall (nows : list Z) (hw : Hw),
     exists ts d',
       strobe_run nows (Dimmer.enter d) hw
       = Ok (ts, d',
             appended (strobe_writes (Dimmer.pwmout d)
                         (gamma d (Dimmer.dim d)) true (length ts)) hw)).
Proof.
  intros Hreach Hpos.
  pose proof (Dimmer_reach_inv d Hreach) as Hinv.
  assert (Hs : Dimmer.strobe d <> 0) by lia.
  split; intros nows hw.
  - destruct (strobe_run_alternates nows d hw Hinv Hs) as (ts & d' & H & _).
    eauto.
  - destruct (strobe_run_alternates nows (Dimmer.enter d) hw Hinv Hs)
      as (ts & d' & H & _).
    eauto.
Qed.

Lemma Dimmer_strobe_alternates_witness :
  Dimmer_reach dimmer_strobing /\ Dimmer.strobe dimmer_strobing > 0 /\
  exists ts d',
    strobe_run [50000000; 60000000; 100000000; 170000000] dimmer_strobing
      idle_hw
    = Ok (ts, d',
          appended (strobe_writes 16 51400 true (length ts)) idle_hw).
Proof.
  split; [exact dimmer_strobing_reach|]. split; [simpl; lia|].
  apply (Dimmer_strobe_alternates dimmer_strobing dimmer_strobing_reach).
  simpl; lia.
Defined.

(** ** The flicker's brightness ceiling *)

Lemma Flicker_scaled_ceiling (duty state k : Z) :
  0 <= duty <= 21760 -> 1 <= k ->
  0 <= Z.shiftr (duty - Z.shiftr duty 1
                 + Z.shiftl (if negb (Z.land state 0x100 =? 0) then 255
                             else Z.land state 255) 7) k <= 21760.
Proof.
  intros Hd Hk.
  set (nv := if negb (Z.land state 0x100 =? 0) then 255 else Z.land state 255).
  assert (Hnv : 0 <= nv <= 255).
  { subst nv. destruct (negb _); [lia|].
    change 255 with (Z.ones 8). rewrite Z.land_ones by lia.
    pose proof (Z.mod_pos_bound state (2 ^ 8) ltac:(lia)).
    change (2 ^ 8) with 256 in *. change (Z.ones 8) with 255. lia. }
  rewrite (Z.shiftr_div_pow2 duty 1), Z.shiftl_mul_pow2 by lia.
  change (2 ^ 1) with 2. change (2 ^ 7) with 128.
  pose proof (Z.div_mod duty 2 ltac:(lia)).
  pose proof (Z.mod_pos_bound duty 2 ltac:(lia)).
  set (x := duty - duty / 2 + nv * 128).
  assert (Hx : 0 <= x <= 43520) by (subst x; lia).
  rewrite Z.shiftr_div_pow2 by lia.
  assert (Hp : 2 <= 2 ^ k).
  { change 2 with (2 ^ 1) at 1. apply Z.pow_le_mono_r; lia. }
  split.
  - apply Z.div_pos; lia.
  - pose proof (Z.div_le_compat_l x 2 (2 ^ k) ltac:(lia) ltac:(lia)).
    pose proof (Z.div_le_upper_bound x 2 21760 ltac:(lia) ltac:(lia)). lia.
Qed.

Lemma Flicker_update_ceiling now f hw f' v hw' :
  0 <= Flicker.dim f <= 5 -> 0 <= Flicker.duty_cycle f <= 21760 ->
  Flicker.update now f hw = Ok ((f', v), hw') ->
  0 <= v <= 21760 /\ 0 <= Flicker.duty_cycle f' <= 21760 /\
  (trace hw' = trace hw \/
   trace hw' = trace hw ++ [PwmWrite (Flicker.pwmout f) v]).
Proof.
  intros Hdim Hduty. unfold Flicker.update.
  destruct now as [now|]; run.
  all: match goal with |- context [?a >=? ?b] => destruct (a >=? b) end.
  all: try (intros Heq; injection Heq as <- <- <-; simpl; auto).
  all: destruct (Z.eqb_spec (Flicker.dim f) 0) as [Hz|Hnz]; run.
  all: try (intros Heq; injection Heq as <- <- <-; simpl;
            split; [lia|]; split; [assumption|]; right; reflexivity).
  all: destruct (Z.ltb_spec (6 - Flicker.dim f) 0) as [Hlt|Hge]; [lia|]; run.
  all: intros Heq; injection Heq as <- <- <-; simpl.
  all: split; [apply Flicker_scaled_ceiling; lia|].
  all: split; [apply Flicker_scaled_ceiling; lia|].
  all: right; reflexivity.
Qed.

Lemma Flicker_reach_ceiling (seed : Z) (f : Flicker.t) :
  Flicker_reach seed f -> 0 <= Flicker.duty_cycle f <= 21760.
Proof.
  induction 1 as [pwmout|value f _ IH|f _ IH|f _ IH|now f hw f' v hw' Hf IH Hup];
    try exact IH.
  - simpl. lia.
  - eapply Flicker_update_ceiling; [|exact IH|exact Hup].
    eapply Flicker_reach_range. exact Hf.
Qed.

(** X3: whatever the seed, the intensity and the timestamps, a Flicker
    never renders more than 21760 (a third of the 16-bit full scale): every
    value an update returns or writes to the PWM sink is in 0..21760, and an
    update makes at most one write, of the value it returns. *)
Theorem Flicker_never_exceeds_ceiling (seed : Z) (f : Flicker.t) :
  Flicker_reach seed f ->
  forall (now : option Z) (hw : Hw) (f' : Flicker.t) (v : Z) (hw' : Hw),
    Flicker.update now f hw = Ok ((f', v), hw') ->
    0 <= v <= 21760 /\
    (trace hw' = trace hw \/
     trace hw' = trace hw ++ [PwmWrite (Flicker.pwmout f) v]).
Proof.
  intros Hf now hw f' v hw' Hup.
  destruct (Flicker_update_ceiling now f hw f' v hw'
              (Flicker_reach_range seed f Hf) (Flicker_reach_ceiling seed f Hf)
              Hup) as (Hv & _ & Htr).
  split; assumption.
Qed.

Lemma flicker_lit_reach : Flicker_reach 0x55CE flicker_lit.
Proof.
  apply (FR_update 0x55CE (Some 33333333)
           (Flicker.set_dim 5 (Flicker.__init__ 16 0x55CE)) idle_hw _ 16320
           (appended [PwmWrite 16 16320] idle_hw)).
  - apply FR_set_dim, FR_init.
  - reflexivity.
Qed.

Lemma Flicker_never_exceeds_ceiling_witness :
  Flicker_reach 0x55CE flicker_lit /\ 0 <= 18864 <= 21760.
Proof.
  split; [exact flicker_lit_reach|].
  eapply proj1.
  eapply (Flicker_never_exceeds_ceiling 0x55CE flicker_lit flicker_lit_reach
            (Some 66666666) idle_hw).
  cbv. reflexivity.
Defined.

(** ** The LFSR on 16-bit states *)

Lemma bit15_false_below (x : Z) :
  0 <= x < 65536 -> Z.testbit x 15 = false -> x < 32768.
Proof.
  intros Hx Hb. apply Z.testbit_false in Hb; [|lia].
  change (2 ^ 15) with 32768 in Hb.
  assert (Hq : 0 <= x / 32768 < 2).
  { split; [apply Z.div_pos; lia|apply Z.div_lt_upper_bound; lia]. }
  rewrite Z.mod_small in Hb by lia.
  pose proof (Z.div_mod x 32768 ltac:(lia)).
  pose proof (Z.mod_pos_bound x 32768 ltac:(lia)). lia.
Qed.

Lemma bit15_below_false (x : Z) :
  0 <= x < 32768 -> Z.testbit x 15 = false.
Proof.
  intros Hx. apply Z.testbit_false; [lia|].
  rewrite Z.div_small by (change (2 ^ 15) with 32768; lia). reflexivity.
Qed.

Lemma lxor_mask_involutive (x : Z) : Z.lxor (Z.lxor x 0x822B) 0x822B = x.
Proof. rewrite Z.lxor_assoc, Z.lxor_nilpotent, Z.lxor_0_r. reflexivity. Qed.

(** The two branches of the step, on a 16-bit state: feedback sets bit 15,
    a plain shift leaves it clear. *)
Lemma lfsr_step_odd (s : Z) :
  0 <= s < 65536 -> s mod 2 = 1 ->
  Flicker._lfsr_step s = Z.lxor (s / 2) 0x822B /\
  32768 <= Flicker._lfsr_step s < 65536.
Proof.
  intros Hs Hodd. unfold Flicker._lfsr_step.
  rewrite land_1_mod, Hodd, Z.shiftr_div_pow2 by lia. change (2 ^ 1) with 2.
  simpl negb. cbv iota. split; [reflexivity|].
  pose proof (Z.div_mod s 2 ltac:(lia)).
  assert (Hx : 0 <= s / 2 < 32768) by lia.
  pose proof (lxor_below (s / 2) 0x822B 16 ltac:(lia)
                ltac:(change (2 ^ 16) with 65536; lia)
                ltac:(change (2 ^ 16) with 65536; lia)) as Hb.
  change (2 ^ 16) with 65536 in Hb.
  split; [|lia].
  destruct (Z.lt_ge_cases (Z.lxor (s / 2) 0x822B) 32768) as [Hlt|]; [|lia].
  pose proof (bit15_below_false _ (conj (proj1 Hb) Hlt)) as Hbit.
  rewrite Z.lxor_spec, (bit15_below_false (s / 2) Hx) in Hbit.
  discriminate.
Qed.

Lemma lfsr_step_even (s : Z) :
  0 <= s < 65536 -> s mod 2 = 0 ->
  Flicker._lfsr_step s = s / 2 /\ 0 <= Flicker._lfsr_step s < 32768.
Proof.
  intros Hs Heven. unfold Flicker._lfsr_step.
  rewrite land_1_mod, Heven, Z.shiftr_div_pow2 by lia. change (2 ^ 1) with 2.
  simpl negb. cbv iota. split; [reflexivity|].
  pose proof (Z.div_mod s 2 ltac:(lia)). lia.
Qed.

Lemma lfsr_step_injective (s t : Z) :
  0 <= s < 65536 -> 0 <= t < 65536 ->
  Flicker._lfsr_step s = Flicker._lfsr_step t -> s = t.
Proof.
  intros Hs Ht Heq.
  pose proof (Z.div_mod s 2 ltac:(lia)) as Hds.
  pose proof (Z.div_mod t 2 ltac:(lia)) as Hdt.
  pose proof (Z.mod_pos_bound s 2 ltac:(lia)) as Hms.
  pose proof (Z.mod_pos_bound t 2 ltac:(lia)) as Hmt.
  destruct (Z.eq_dec (s mod 2) 0) as [Hse|Hso];
    destruct (Z.eq_dec (t mod 2) 0) as [Hte|Hto].
  - destruct (lfsr_step_even s Hs Hse) as (Es & _).
    destruct (lfsr_step_even t Ht Hte) as (Et & _). lia.
  - destruct (lfsr_step_even s Hs Hse) as (_ & Rs).
    destruct (lfsr_step_odd t Ht ltac:(lia)) as (_ & Rt). lia.
  - destruct (lfsr_step_odd s Hs ltac:(lia)) as (_ & Rs).
    destruct (lfsr_step_even t Ht Hte) as (_ & Rt). lia.
  - destruct (lfsr_step_odd s Hs ltac:(lia)) as (Es & _).
    destruct (lfsr_step_odd t Ht ltac:(lia)) as (Et & _).
    assert (Hh : s / 2 = t / 2).
    { rewrite <- (lxor_mask_involutive (s / 2)),
              <- (lxor_mask_involutive (t / 2)).
      rewrite <- Es, <- Et, Heq. reflexivity. }
    lia.
Qed.

Lemma lfsr_step_surjective (t : Z) :
  0 <= t < 65536 ->
  exists s : Z, 0 <= s < 65536 /\ Flicker._lfsr_step s = t.
Proof.
  intros Ht. destruct (Z.lt_ge_cases t 32768) as [Hlow|Hhigh].
  - exists (2 * t). split; [lia|].
    destruct (lfsr_step_even (2 * t) ltac:(lia)) as (-> & _).
    + rewrite Z.mul_comm. apply Z.mod_mul. lia.
    + rewrite Z.mul_comm. apply Z.div_mul. lia.
  - pose proof (lxor_below t 0x822B 16 ltac:(lia)
                  ltac:(change (2 ^ 16) with 65536; lia)
                  ltac:(change (2 ^ 16) with 65536; lia)) as Hb.
    change (2 ^ 16) with 65536 in Hb.
    assert (Hbit : Z.testbit t 15 = true).
    { destruct (Z.testbit t 15) eqn:E; [reflexivity|].
      pose proof (bit15_false_below t Ht E). lia. }
    assert (Hx : Z.lxor t 0x822B < 32768).
    { apply bit15_false_below; [exact Hb|].
      rewrite Z.lxor_spec, Hbit. reflexivity. }
    exists (2 * Z.lxor t 0x822B + 1). split; [lia|].
    destruct (lfsr_step_odd (2 * Z.lxor t 0x822B + 1) ltac:(lia)) as (-> & _).
    + rewrite Z.add_comm, Z.mul_comm. rewrite Z.mod_add by lia. reflexivity.
    + replace ((2 * Z.lxor t 0x822B + 1) / 2) with (Z.lxor t 0x822B).
      * apply lxor_mask_involutive.
      * symmetry. rewrite Z.add_comm, Z.mul_comm.
        rewrite Z.div_add by lia. reflexivity.
Qed.

(** X4: on 16-bit states the LFSR step is a permutation that fixes 0 and
    nothing else maps to 0: it keeps states below 2^16, two different states
    never step to the same state, and every state is the step of one. *)
Theorem lfsr_step_permutes_16_bit_states :
  (forall s : Z, 0 <= s < 65536 -> 0 <= Flicker._lfsr_step s < 65536) /\
  (forall s t : Z, 0 <= s < 65536 -> 0 <= t < 65536 ->
     Flicker._lfsr_step s = Flicker._lfsr_step t -> s = t) /\
  (forall t : Z, 0 <= t < 65536 ->
     exists s : Z, 0 <= s < 65536 /\ Flicker._lfsr_step s = t) /\
  (forall s : Z, 0 <= s < 65536 -> (Flicker._lfsr_step s = 0 <-> s = 0)).
Proof.
  split; [|split; [exact lfsr_step_injective|split; [exact lfsr_step_surjective|]]].
  - intros s Hs. destruct (Z.eq_dec s 0) as [->|Hne].
    + change (Flicker._lfsr_step 0) with 0. lia.
    + pose proof (lfsr_step_pos s ltac:(lia)). lia.
  - intros s Hs. split.
    + intros Hz. apply (lfsr_step_injective s 0 Hs ltac:(lia)).
      rewrite Hz. reflexivity.
    + intros ->. reflexivity.
Qed.

(** ** The LFSR has full period *)

Lemma lfsr_steps_succ (n : N) (s : Z) :
  lfsr_steps (N.succ n) s = Flicker._lfsr_step (lfsr_steps n s).
Proof. unfold lfsr_steps. apply N.iter_succ. Qed.

Lemma lfsr_steps_add (a b : N) (s : Z) :
  lfsr_steps (a + b) s = lfsr_steps a (lfsr_steps b s).
Proof. unfold lfsr_steps. apply N.iter_add. Qed.

Lemma lfsr_steps_range (n : N) (s : Z) :
  0 < s < 65536 -> 0 < lfsr_steps n s < 65536.
Proof.
  intros Hs. induction n as [|n IH] using N.peano_ind.
  - exact Hs.
  - rewrite lfsr_steps_succ. apply lfsr_step_pos. exact IH.
Qed.

Lemma lfsr_steps_injective (n : N) (s t : Z) :
  0 < s < 65536 -> 0 < t < 65536 ->
  lfsr_steps n s = lfsr_steps n t -> s = t.
Proof.
  intros Hs Ht. induction n as [|n IH] using N.peano_ind.
  - intros H. exact H.
  - rewrite !lfsr_steps_succ. intros H. apply IH.
    pose proof (lfsr_steps_range n s Hs). pose proof (lfsr_steps_range n t Ht).
    apply lfsr_step_injective; [lia|lia|exact H].
Qed.

Lemma lfsr_scan_spec (n : N) :
  fst (N.iter n lfsr_scan (1, false)) = lfsr_steps n 1 /\
  (snd (N.iter n lfsr_scan (1, false)) = false ->
   forall j : N, (0 < j <= n)%N -> lfsr_steps j 1 <> 1).
Proof.
  induction n as [|n [IHs IHn]] using N.peano_ind.
  - split; [reflexivity|]. intros _ j Hj. lia.
  - rewrite N.iter_succ, lfsr_steps_succ. unfold lfsr_scan at 1. simpl.
    rewrite IHs. split; [reflexivity|].
    intros Hsnd. apply orb_false_iff in Hsnd as [Hold Hnew].
    intros j Hj. destruct (N.eq_dec j (N.succ n)) as [->|Hne].
    + rewrite lfsr_steps_succ. apply Z.eqb_neq. exact Hnew.
    + apply (IHn Hold). lia.
Qed.

(** The orbit of 1 first returns to 1 after 65535 steps. *)
Lemma lfsr_orbit_of_1 :
  lfsr_steps 65535 1 = 1 /\
  forall j : N, (0 < j < 65535)%N -> lfsr_steps j 1 <> 1.
Proof.
  split; [vm_compute; reflexivity|].
  intros j Hj. apply (proj2 (lfsr_scan_spec 65534)).
  - vm_compute. reflexivity.
  - lia.
Qed.

Lemma lfsr_orbit_distinct (i j : N) :
  (i <= j < 65535)%N -> lfsr_steps i 1 = lfsr_steps j 1 -> i = j.
Proof.
  intros Hij Heq.
  replace j with (i + (j - i))%N in Heq by lia.
  rewrite lfsr_steps_add in Heq.
  apply lfsr_steps_injective in Heq;
    [|lia|apply lfsr_steps_range; lia].
  destruct (N.eq_dec (j - i)%N 0%N) as [Hz|Hnz]; [lia|].
  exfalso. apply (proj2 lfsr_orbit_of_1 (j - i)%N); [lia|].
  symmetry. exact Heq.
Qed.

(** Every nonzero 16-bit state lies on the orbit of 1. *)
Lemma lfsr_orbit_covers (seed : Z) :
  0 < seed < 65536 ->
  exists j : N, (j < 65535)%N /\ lfsr_steps j 1 = seed.
Proof.
  intros Hseed.
  remember (N.to_nat 65535) as n eqn:Hn.
  assert (Hn' : N.of_nat n = 65535%N) by (subst n; apply N2Nat.id).
  set (orbit := List.map (fun j : nat => lfsr_steps (N.of_nat j) 1) (seq 0 n)).
  set (states := List.map (fun j : nat => Z.of_nat j) (seq 1 n)).
  assert (Hnodup : List.NoDup orbit).
  { subst orbit. apply Finite.Injective_map_NoDup_in; [|apply seq_NoDup].
    intros i j Hi Hj Heq. apply in_seq in Hi, Hj.
    destruct (Nat.le_ge_cases i j) as [Hle|Hle].
    - apply Nat2N.inj. apply lfsr_orbit_distinct; [lia|exact Heq].
    - symmetry. apply Nat2N.inj.
      apply lfsr_orbit_distinct; [lia|symmetry; exact Heq]. }
  assert (Hincl : List.incl orbit states).
  { intros x Hx. subst orbit states.
    apply in_map_iff in Hx as (j & <- & Hj).
    pose proof (lfsr_steps_range (N.of_nat j) 1 ltac:(lia)) as Hr.
    apply in_map_iff. exists (Z.to_nat (lfsr_steps (N.of_nat j) 1)).
    split; [lia|]. apply in_seq. lia. }
  assert (Hlen : (length states <= length orbit)%nat).
  { subst orbit states. rewrite !length_map, !length_seq. lia. }
  pose proof (List.NoDup_length_incl Hnodup Hlen Hincl) as Hall.
  assert (Hin : List.In seed states).
  { subst states. apply in_map_iff. exists (Z.to_nat seed).
    split; [lia|]. apply in_seq. lia. }
  apply Hall in Hin. subst orbit.
  apply in_map_iff in Hin as (j & Hj & Hjn). apply in_seq in Hjn.
  exists (N.of_nat j). split; [lia|exact Hj].
Qed.

(** X5: the flicker's LFSR has full period: from every nonzero 16-bit seed
    the state is back at the seed after exactly 65535 steps and at no
    earlier step, so the sequence passes through every nonzero 16-bit state
    before it repeats. *)
Theorem lfsr_has_full_period (seed : Z) :
  0 < seed < 65536 ->
  lfsr_steps 65535 seed = seed /\
  (forall k : N, (0 < k < 65535)%N -> lfsr_steps k seed <> seed) /\
  (forall s : Z, 0 < s < 65536 ->
     exists j : N, (j < 65535)%N /\ lfsr_steps j seed = s).
Proof.
  intros Hseed.
  destruct (lfsr_orbit_covers seed Hseed) as (j & Hj & Hjs).
  assert (Hcomm : forall k, lfsr_steps k seed = lfsr_steps j (lfsr_steps k 1)).
  { intros k. rewrite <- Hjs, <- !lfsr_steps_add. f_equal. lia. }
  split; [|split].
  - rewrite Hcomm, (proj1 lfsr_orbit_of_1). exact Hjs.
  - intros k Hk Heq. rewrite Hcomm, <- Hjs in Heq.
    apply lfsr_steps_injective in Heq;
      [|apply lfsr_steps_range; lia|lia].
    exact (proj2 lfsr_orbit_of_1 k Hk Heq).
  - intros s Hs.
    destruct (lfsr_orbit_covers s Hs) as (i & Hi & His).
    destruct (N.le_gt_cases j i) as [Hle|Hgt].
    + exists (i - j)%N. split; [lia|].
      rewrite <- Hjs, <- lfsr_steps_add, <- His. f_equal. lia.
    + exists (i + 65535 - j)%N. split; [lia|].
      rewrite <- Hjs, <- lfsr_steps_add.
      replace (i + 65535 - j + j)%N with (i + 65535)%N by lia.
      rewrite lfsr_steps_add, (proj1 lfsr_orbit_of_1). exact His.
Qed.

Lemma lfsr_has_full_period_witness :
  0 < 0x55CE < 65536 /\ lfsr_steps 65535 0x55CE = 0x55CE.
Proof.
  split; [lia|]. apply (lfsr_has_full_period 0x55CE). lia.
Defined.

(** ** Registering states *)

(** X6: [add_state] registers a state object under its class's name and
    touches nothing else; a later object of the same class replaces the
    earlier registration; and [go_to_state] with that name then makes the
    registered object the active one. *)
Theorem add_state_registers (m : StateMachine.t) (w : World) (r : nat)
    (obj : ActorState) :
  heap w !! r = Some obj ->
  exists m',
    StateMachine.add_state r m w = Ok (m', w) /\
    StateMachine.state m' = StateMachine.state m /\
    StateMachine.states m' !! name obj = Some r /\
    (forall key, key <> name obj ->
       StateMachine.states m' !! key = StateMachine.states m !! key) /\
    (forall (r2 : nat) (obj2 : ActorState),
       heap w !! r2 = Some obj2 -> name obj2 = name obj ->
       exists m2,
         StateMachine.add_state r2 m' w = Ok (m2, w) /\
         StateMachine.states m2 !! name obj = Some r2) /\
    (machine_ok m' w ->
     exists w',
       StateMachine.go_to_state (name obj) m' w
       = Ok (StateMachine.mk (Some r) (StateMachine.states m'), w')).
Proof.
  intros Hr.
  exists (StateMachine.mk (StateMachine.state m)
            (<[name obj := r]> (StateMachine.states m))).
  split.
  { unfold StateMachine.add_state, bind, deref. rewrite Hr. reflexivity. }
  cbn [StateMachine.state StateMachine.states].
  split; [reflexivity|]. split; [apply lookup_insert_eq|].
  split; [intros key Hkey; apply lookup_insert_ne; congruence|].
  split.
  - intros r2 obj2 Hr2 Hname. eexists. split.
    + unfold StateMachine.add_state, bind, deref. rewrite Hr2. reflexivity.
    + cbn [StateMachine.states]. rewrite Hname. apply lookup_insert_eq.
  - intros Hok.
    destruct (proj2 Hok (name obj) r) as (obj' & Hr' & Hb).
    { cbn [StateMachine.states]. apply lookup_insert_eq. }
    rewrite (go_to_state_ok _ w (name obj) r obj' (proj1 Hok)); eauto.
    cbn [StateMachine.states]. apply lookup_insert_eq.
Qed.

Lemma add_state_registers_witness :
  heap stage_world !! 1%nat = Some (Triggered stage_triggered 0%Q) /\
  exists m',
    StateMachine.add_state 1 StateMachine.__init__ stage_world
    = Ok (m', stage_world) /\
    StateMachine.states m' !! "triggered" = Some 1%nat.
Proof.
  split; [reflexivity|].
  destruct (add_state_registers StateMachine.__init__ stage_world 1
              (Triggered stage_triggered 0%Q) eq_refl)
    as (m' & Hadd & _ & Hreg & _).
  exists m'. split; [exact Hadd|exact Hreg].
Defined.

(** ** Transitions and the hardware *)

Lemma exit_events_no_pwm (obj : ActorState) :
  Forall (fun e => ~ is_PwmWrite e) (exit_events obj).
Proof.
  unfold exit_events. constructor; [simpl; tauto|].
  destruct obj as [s|s tf]; [|constructor].
  destruct (State.wave s); [destruct (State.i2s s)|];
    repeat constructor; simpl; tauto.
Qed.

Lemma enter_events_no_pwm (obj : ActorState) :
  Forall (fun e => ~ is_PwmWrite e) (enter_events obj).
Proof.
  unfold enter_events. constructor; [simpl; tauto|].
  destruct obj as [s|s tf].
  - destruct (State.wave s); [destruct (State.i2s s)|];
      repeat constructor; simpl; tauto.
  - destruct (State.i2s s); repeat constructor; simpl; tauto.
Qed.

(** X7: on a machine whose states have their audio bound, a transition to a
    registered state returns, writes to no PWM sink and samples no
    nanosecond timestamp: its events are the log line and audio stop of the
    state it leaves followed by the log line and audio start of the state it
    enters.  It changes one object only, the entered state, whose effects
    are each entered; the state it leaves keeps its fields. *)
Theorem transition_leaves_lights_alone (m : StateMachine.t) (w : World)
    (state_name : string) (r : nat) (obj : ActorState) :
  machine_ok m w ->
  StateMachine.states m !! state_name = Some r ->
  heap w !! r = Some obj ->
  exists w',
    StateMachine.go_to_state state_name m w
    = Ok (StateMachine.mk (Some r) (StateMachine.states m), w') /\
    trace (hw w') = trace (hw w) ++ leave_events m w ++ enter_events obj /\
    Forall (fun e => ~ is_PwmWrite e) (leave_events m w ++ enter_events obj) /\
    ns_reads (hw w') = ns_reads (hw w) /\
    heap w' = <[r := entered obj (appended (leave_events m w) (hw w))]> (heap w) /\
    State.effects (fields (entered obj (appended (leave_events m w) (hw w))))
    = map Effect.enter (State.effects (fields obj)).
Proof.
  intros Hok Hname Hr.
  destruct (proj2 Hok _ _ Hname) as (obj' & Hr' & Hb).
  assert (obj' = obj) by congruence. subst obj'.
  rewrite (go_to_state_ok m w state_name r obj (proj1 Hok) Hname Hr Hb).
  eexists. split; [reflexivity|]. cbn [hw heap].
  split; [|split; [|split; [|split]]].
  - destruct obj; simpl; rewrite <- app_assoc; reflexivity.
  - apply Forall_app. split; [|apply enter_events_no_pwm].
    unfold leave_events. destruct (StateMachine.state m); [|constructor].
    destruct (heap w !! n); [apply exit_events_no_pwm|constructor].
  - destruct obj; reflexivity.
  - reflexivity.
  - destruct obj; reflexivity.
Qed.

Lemma transition_leaves_lights_alone_witness :
  machine_ok stage_machine stage_world /\
  exists w',
    StateMachine.go_to_state "triggered" stage_machine stage_world
    = Ok (StateMachine.mk (Some 1%nat) stage_states, w') /\
    ns_reads (hw w') = ns_reads (hw stage_world).
Proof.
  split; [exact stage_machine_ok|].
  destruct (transition_leaves_lights_alone stage_machine stage_world
              "triggered" 1 (Triggered stage_triggered 0%Q)
              stage_machine_ok eq_refl eq_refl)
    as (w' & Hgo & _ & _ & Hns & _).
  exists w'. split; [exact Hgo|exact Hns].
Defined.

(** ** A tick of the ambient state *)

Lemma Effect_update_reach now e h e' h' :
  Effect_reach e -> Effect.update now e h = Ok (e', h') -> Effect_reach e'.
Proof.
  intros [d Hd|seed f Hf]; simpl; unfold bind.
  - destruct (Dimmer.update now d h) as [[d' h1]|] eqn:E; [|discriminate].
    intros H. injection H as <- <-. constructor.
    eapply DR_update; eassumption.
  - destruct (Flicker.update now f h) as [[[f' v] h1]|] eqn:E; [|discriminate].
    intros H. injection H as <- <-. econstructor.
    eapply FR_update; eassumption.
Qed.

Lemma Effect_enter_reach (e : Effect.t) :
  Effect_reach e -> Effect_reach (Effect.enter e).
Proof.
  intros [d Hd|seed f Hf]; simpl.
  - constructor. apply DR_enter. exact Hd.
  - econstructor. apply FR_enter. exact Hf.
Qed.

Lemma update_all_reach now effects h effects' h' :
  Forall Effect_reach effects ->
  Effect.update_all now effects h = Ok (effects', h') ->
  Forall Effect_reach effects'.
Proof.
  intros Hall. revert h effects' h'.
  induction Hall as [|e rest He _ IH]; intros h effects' h'; simpl.
  - intros H. injection H as <- <-. constructor.
  - unfold bind at 1.
    destruct (Effect.update now e h) as [[e1 h1]|] eqn:E; [|discriminate].
    unfold bind at 1.
    destruct (Effect.update_all now rest h1) as [[rest1 h2]|] eqn:E1;
      [|discriminate].
    intros H. injection H as <- <-. constructor.
    + eapply Effect_update_reach; eassumption.
    + eapply IH. exact E1.
Qed.

(** How [AmbientState.update] runs when its effects are well built. *)
Lemma AmbientState_update_run (m : StateMachine.t) (w : World) (self : nat)
    (s : State.t) :
  Forall Effect_reach (State.effects s) ->
  exists effects' evs,
    Forall2 (fun e e' => exists h h',
               Effect.update
                 (Some (monotonic_ns (hw w) (ns_reads (hw w)))) e h
               = Ok (e', h'))
      (State.effects s) effects' /\
    Forall Effect_reach effects' /\
    AmbientState.update StateMachine.go_to_state self s m w
    = (if fell (hw w) then StateMachine.go_to_state "triggered" m else ret m)
        (mkWorld (appended evs (sampled (hw w)))
           (<[self := Ambient (State.with_effects effects' s)]> (heap w))).
Proof.
  intros Hall.
  destruct (update_all_some (monotonic_ns (hw w) (ns_reads (hw w)))
              (State.effects s) (sampled (hw w)) Hall)
    as (effects' & evs & Hupd & Hall2).
  exists effects', evs. split; [exact Hall2|].
  split; [eapply update_all_reach; eassumption|].
  unfold AmbientState.update, State.update.
  unfold bind at 1. unfold bind at 1. unfold bind at 1.
  unfold lift at 1, time_monotonic_ns. cbn [hw heap].
  unfold lift at 1. cbn [hw heap]. fold (sampled (hw w)). rewrite Hupd.
  unfold store at 1. cbn [hw heap].
  unfold bind at 1. unfold lift at 1, trigger_fell. reflexivity.
Qed.

(** How [TriggeredState.update] runs while the clip plays. *)
Lemma TriggeredState_update_run (m : StateMachine.t) (w : World) (self : nat)
    (s : State.t) (tf : Q) (bus : nat) :
  State.i2s s = Some bus ->
  Forall Effect_reach (State.effects s) ->
  exists effects' evs,
    Forall Effect_reach effects' /\
    TriggeredState.update StateMachine.go_to_state self s tf m w
    = if playing (hw w) bus
      then Ok (m, mkWorld (appended evs (sampled (hw w)))
                    (<[self := Triggered (State.with_effects effects' s) tf]>
                       (heap w)))
      else StateMachine.go_to_state "ambient" m w.
Proof.
  intros Hbus Hall.
  destruct (update_all_some (monotonic_ns (hw w) (ns_reads (hw w)))
              (State.effects s) (sampled (hw w)) Hall)
    as (effects' & evs & Hupd & Hall2).
  exists effects', evs.
  split; [eapply update_all_reach; eassumption|].
  unfold TriggeredState.update. rewrite Hbus.
  unfold bind at 1, lift at 1, i2s_playing.
  destruct (playing (hw w) bus); cbn [negb].
  - unfold State.update.
    unfold bind at 1. unfold bind at 1. unfold bind at 1.
    unfold lift at 1, time_monotonic_ns. cbn [hw heap].
    unfold lift at 1. cbn [hw heap]. fold (sampled (hw w)). rewrite Hupd.
    reflexivity.
  - destruct w; reflexivity.
Qed.

(** X8: [AmbientState.update] samples one timestamp and updates every owned
    effect with it before it looks at the trigger, also on the tick the
    trigger fell; then, if the trigger fell, the call is the machine's
    transition to 'triggered' from the world the effects left, and
    otherwise the machine is returned as it was. *)
Theorem AmbientState_update_tick (m : StateMachine.t) (w : World)
    (self : nat) (s : State.t) :
  Forall Effect_reach (State.effects s) ->
  let now := monotonic_ns (hw w) (ns_reads (hw w)) in
  exists effects' hw',
    let w' := mkWorld hw'
                (<[self := Ambient (State.with_effects effects' s)]> (heap w)) in
    Forall2 (fun e e' => exists h h',
               Effect.update (Some now) e h = Ok (e', h'))
      (State.effects s) effects' /\
    ns_reads hw' = S (ns_reads (hw w)) /\
    fell hw' = fell (hw w) /\
    (fell (hw w) = false ->
     AmbientState.update StateMachine.go_to_state self s m w = Ok (m, w')) /\
    (fell (hw w) = true ->
     AmbientState.update StateMachine.go_to_state self s m w
     = StateMachine.go_to_state "triggered" m w').
Proof.
  intros Hall now.
  destruct (AmbientState_update_run m w self s Hall)
    as (effects' & evs & Hall2 & _ & Hrun).
  exists effects', (appended evs (sampled (hw w))). cbv zeta.
  split; [exact Hall2|]. split; [reflexivity|]. split; [reflexivity|].
  rewrite Hrun.
  split; intros Hfell; rewrite Hfell; reflexivity.
Qed.

Lemma AmbientState_update_tick_witness :
  Forall Effect_reach (State.effects stage_ambient) /\
  exists w',
    AmbientState.update StateMachine.go_to_state 0 stage_ambient
      stage_machine stage_world
    = Ok (stage_machine, w') /\
    trace (hw w') = [PwmWrite 16 51400].
Proof.
  assert (H : Forall Effect_reach (State.effects stage_ambient)).
  { repeat constructor. exact dimmer_steady_reach. }
  split; [exact H|].
  destruct (AmbientState_update_tick stage_machine stage_world 0
              stage_ambient H) as (effects' & hw' & _ & _ & _ & Hstay & _).
  eexists. split; [apply Hstay; reflexivity|].
  specialize (Hstay eq_refl). vm_compute in Hstay.
  injection Hstay as Hhw _. rewrite <- Hhw. reflexivity.
Defined.

(** ** The main loop never faults *)

Lemma Forall_enter_reach (effects : list Effect.t) :
  Forall Effect_reach effects -> Forall Effect_reach (map Effect.enter effects).
Proof.
  induction 1 as [|e rest He _ IH]; simpl; constructor;
    [apply Effect_enter_reach; exact He|exact IH].
Qed.

Lemma entered_object_ok (obj : ActorState) (h : Hw) :
  object_ok obj -> object_ok (entered obj h).
Proof.
  intros [Hb He]. split; [apply entered_bound; exact Hb|].
  destruct obj; simpl in *; apply Forall_enter_reach; exact He.
Qed.

Lemma loop_ok_store (m : StateMachine.t) (w : World) (h : Hw) (r : nat)
    (obj : ActorState) :
  loop_ok m w -> object_ok obj ->
  loop_ok m (mkWorld h (<[r := obj]> (heap w))).
Proof.
  intros (Hheap & Hrefs & Hact & Ha & Ht) Hobj.
  split; [|split; [|split; [exact Hact|split; assumption]]]; cbn [heap].
  - intros r' obj' Hr'. apply lookup_insert_Some in Hr' as [[_ <-]|[_ Hr']].
    + exact Hobj.
    + eapply Hheap. exact Hr'.
  - intros key r' Hkey. apply lookup_insert_is_Some.
    destruct (decide (r = r')); [left; assumption|right].
    split; [assumption|]. eapply Hrefs. exact Hkey.
Qed.

Lemma go_to_state_keeps_loop_ok (m : StateMachine.t) (w : World)
    (state_name : string) (r : nat) :
  loop_ok m w -> StateMachine.states m !! state_name = Some r ->
  exists w',
    StateMachine.go_to_state state_name m w
    = Ok (StateMachine.mk (Some r) (StateMachine.states m), w') /\
    loop_ok (StateMachine.mk (Some r) (StateMachine.states m)) w'.
Proof.
  intros Hok Hname.
  pose proof Hok as (Hheap & Hrefs & Hact & Ha & Ht).
  destruct (Hrefs _ _ Hname) as [obj Hr].
  destruct (Hheap _ _ Hr) as [Hb He].
  rewrite (go_to_state_ok m w state_name r obj); try assumption.
  - eexists. split; [reflexivity|].
    assert (Hok' : loop_ok (StateMachine.mk (Some r) (StateMachine.states m)) w).
    { split; [exact Hheap|]. split; [exact Hrefs|].
      split; [|split; assumption].
      intros r' Hr'. injection Hr' as <-. exists state_name. exact Hname. }
    apply (loop_ok_store _ w _ r _ Hok').
    apply entered_object_ok. split; assumption.
  - intros r0 Hr0. destruct (Hact r0 Hr0) as [key Hkey].
    destruct (Hrefs _ _ Hkey) as [obj0 Hobj0].
    exists obj0. split; [exact Hobj0|]. apply (Hheap _ _ Hobj0).
Qed.

Lemma update_keeps_loop_ok (m : StateMachine.t) (w : World) :
  loop_ok m w ->
  exists m' w',
    StateMachine.update m w = Ok (m', w') /\
    loop_ok m' w' /\
    StateMachine.states m' = StateMachine.states m.
Proof.
  intros Hok.
  pose proof Hok as (Hheap & Hrefs & Hact & [ra Hra] & [rt Hrt]).
  unfold StateMachine.update.
  destruct (StateMachine.state m) as [r|] eqn:Hst.
  - destruct (Hact r eq_refl) as [key Hkey].
    destruct (Hrefs _ _ Hkey) as [obj Hr].
    destruct (Hheap _ _ Hr) as [Hb He].
    unfold bind at 1, deref. rewrite Hr.
    destruct obj as [s|s tf]; cbn [fields] in He.
    + destruct (AmbientState_update_run m w r s He)
        as (effects' & evs & _ & Hreach & ->).
      assert (Hok1 : loop_ok m
                (mkWorld (appended evs (sampled (hw w)))
                   (<[r := Ambient (State.with_effects effects' s)]> (heap w)))).
      { apply loop_ok_store; [exact Hok|]. split; [exact Hb|exact Hreach]. }
      destruct (fell (hw w)).
      * destruct (go_to_state_keeps_loop_ok m _ "triggered" rt Hok1 Hrt)
          as (w' & -> & Hok').
        eexists. eexists. split; [reflexivity|]. split; [exact Hok'|reflexivity].
      * eexists. eexists. split; [reflexivity|]. split; [exact Hok1|reflexivity].
    + destruct Hb as [bus Hbus].
      destruct (TriggeredState_update_run m w r s tf bus Hbus He)
        as (effects' & evs & Hreach & ->).
      destruct (playing (hw w) bus).
      * eexists. eexists. split; [reflexivity|]. split; [|reflexivity].
        apply loop_ok_store; [exact Hok|].
        split; [simpl; eauto|exact Hreach].
      * destruct (go_to_state_keeps_loop_ok m w "ambient" ra Hok Hra)
          as (w' & -> & Hok').
        eexists. eexists. split; [reflexivity|]. split; [exact Hok'|reflexivity].
  - exists m, w. split; [reflexivity|]. split; [exact Hok|reflexivity].
Qed.

Lemma sense_keeps_loop_ok (i : Inputs) (m : StateMachine.t) (w : World) :
  loop_ok m w -> loop_ok m (sense i w).
Proof. intros H. exact H. Qed.

Lemma main_loop_keeps_loop_ok (m : StateMachine.t) (w : World)
    (inputs : list Inputs) :
  loop_ok m w ->
  exists m' w',
    main_loop inputs m w = Ok (m', w') /\
    loop_ok m' w' /\
    StateMachine.states m' = StateMachine.states m.
Proof.
  revert m w. induction inputs as [|i rest IH]; intros m w Hok.
  - exists m, w. split; [reflexivity|]. split; [exact Hok|reflexivity].
  - simpl.
    destruct (update_keeps_loop_ok m (sense i w) (sense_keeps_loop_ok i m w Hok))
      as (m1 & w1 & -> & Hok1 & Hst1).
    destruct (IH m1 w1 Hok1) as (m' & w' & Hrun & Hok' & Hst').
    exists m', w'. split; [exact Hrun|]. split; [exact Hok'|].
    rewrite Hst'. exact Hst1.
Qed.

(** X9: the main loop never raises.  On a machine as main.py builds it
    (both states registered, audio bound, effects built by the
    constructors), any number of iterations returns, whatever the trigger and
    the audio driver report before each and whatever the clock reads; the
    machine stays such a machine, its registry is never changed, and the
    active state is always a registered one. *)
Theorem main_loop_never_faults (m : StateMachine.t) (w : World) :
  loop_ok m w ->
  forall inputs : list Inputs,
    exists m' w',
      main_loop inputs m w = Ok (m', w') /\
      loop_ok m' w' /\
      StateMachine.states m' = StateMachine.states m.
Proof.
  intros Hok inputs. apply main_loop_keeps_loop_ok. exact Hok.
Qed.

Lemma stage_loop_ok : loop_ok stage_machine stage_world.
Proof.
  split; [|split; [|split; [|split]]].
  - intros r obj Hr. unfold stage_world, stage_heap in Hr. cbn [heap] in Hr.
    apply lookup_insert_Some in Hr as [[_ <-]|[_ Hr]].
    + split; [simpl; eauto|]. repeat constructor.
      econstructor. exact flicker_lit_reach.
    + apply lookup_insert_Some in Hr as [[_ <-]|[_ Hr]].
      * split; [simpl; intros [? H]; discriminate|].
        repeat constructor. exact dimmer_steady_reach.
      * rewrite lookup_empty in Hr. discriminate.
  - intros key r Hr.
    destruct (proj2 stage_machine_ok key r Hr) as (obj & Hobj & _). eauto.
  - intros r Hr. injection Hr as <-. exists "ambient". reflexivity.
  - eexists. reflexivity.
  - eexists. reflexivity.
Qed.

Lemma main_loop_never_faults_witness :
  loop_ok stage_machine stage_world /\
  exists m' w',
    main_loop [mkInputs false (fun _ => false); mkInputs true (fun _ => true);
               mkInputs false (fun _ => false)]
      stage_machine stage_world
    = Ok (m', w').
Proof.
  split; [exact stage_loop_ok|].
  destruct (main_loop_never_faults stage_machine stage_world stage_loop_ok
              [mkInputs false (fun _ => false); mkInputs true (fun _ => true);
               mkInputs false (fun _ => false)])
    as (m' & w' & Hrun & _).
  exists m', w'. exact Hrun.
Defined.

(** ** Start-up *)

Lemma read_key_triggered_cases (t : Subtable) (key : string)
    (cs : EffectConfig * EffectConfig) :
  (key = "effect1.strobe" /\
   read_key_triggered t key cs = inl (NameError "output1_confic")) \/
  (key <> "effect1.strobe" /\
   exists cs', read_key_triggered t key cs = inr cs').
Proof.
  unfold read_key_triggered. destruct cs as [c1 c2].
  destruct (String.eqb_spec key "effect1") as [->|_];
    [right; split; [discriminate|eauto]|].
  destruct (String.eqb_spec key "effect1.dim") as [->|_];
    [right; split; [discriminate|eauto]|].
  destruct (String.eqb_spec key "effect1.strobe") as [->|Hne];
    [left; split; reflexivity|].
  right. split; [exact Hne|].
  repeat match goal with
         | |- context [String.eqb ?a ?b] => destruct (String.eqb a b)
         end; eauto.
Qed.

Lemma read_keys_triggered_cases (t : Subtable) (ks : list string)
    (cs : EffectConfig * EffectConfig) :
  (In "effect1.strobe" ks /\
   read_keys_triggered t ks cs = inl (NameError "output1_confic")) \/
  (~ In "effect1.strobe" ks /\
   exists cs', read_keys_triggered t ks cs = inr cs').
Proof.
  revert cs. induction ks as [|key rest IH]; intros cs; simpl.
  - right. split; [tauto|eauto].
  - destruct (read_key_triggered_cases t key cs)
      as [(-> & ->)|(Hne & cs' & ->)].
    + left. split; [left; reflexivity|reflexivity].
    + destruct (IH cs') as [(Hin & ->)|(Hnin & cs'' & ->)].
      * left. split; [right; exact Hin|reflexivity].
      * right. split; [|eauto]. intros [Heq|Hin]; [congruence|tauto].
Qed.

Lemma read_ambient_ok (toml : Toml) (w : World) :
  exists cs h,
    read_ambient toml w = Started (cs, mkWorld h (heap w)).
Proof.
  unfold read_ambient. destruct (toml "ambient") as [msg|t].
  - do 2 eexists. reflexivity.
  - exists (read_keys_ambient t (keys t)
              (default_config 0x55ce, default_config 0x55ce)), (hw w).
    destruct w; reflexivity.
Qed.

Lemma read_triggered_cases (toml : Toml) (w : World) :
  (exists t, toml "triggered" = inr t /\ In "effect1.strobe" (keys t) /\
             read_triggered toml w = Failed (NameError "output1_confic")) \/
  ((forall t, toml "triggered" = inr t -> ~ In "effect1.strobe" (keys t)) /\
   exists cs h, read_triggered toml w = Started (cs, mkWorld h (heap w))).
Proof.
  unfold read_triggered. destruct (toml "triggered") as [msg|t].
  - right. split; [discriminate|]. do 2 eexists. reflexivity.
  - destruct (read_keys_triggered_cases t (keys t)
                (default_config 0x55ce, default_config 0x6c4a))
      as [(Hin & ->)|(Hnin & cs' & ->)].
    + left. exists t. auto.
    + right. split.
      * intros t' Ht'. injection Ht' as <-. exact Hnin.
      * exists cs', (hw w). destruct w; reflexivity.
Qed.

Lemma set_strobe_runs (frequency : Z) (d : Dimmer.t) (h : Hw) :
  exists d' h', Dimmer.set_strobe frequency d h = Ok (d', h').
Proof.
  unfold Dimmer.set_strobe.
  match goal with |- context [if ?c then _ else ret _] => destruct c end;
    run; eauto.
Qed.

(** The effect of one output: the state gains at most one effect, a well
    built one, and keeps its audio; the heap is not touched. *)
Lemma add_configured_effect_ok (gamma_entry : Z -> Z) (pwmout : nat)
    (c : EffectConfig) (s : State.t) (w : World) :
  exists s' h,
    add_configured_effect gamma_entry pwmout c s w
    = Started (s', mkWorld h (heap w)) /\
    State.i2s s' = State.i2s s /\ State.wave s' = State.wave s /\
    (Forall Effect_reach (State.effects s) ->
     Forall Effect_reach (State.effects s')).
Proof.
  unfold add_configured_effect.
  destruct (String.eqb (cfg_effect c) "dimmer").
  - unfold sbind at 1, of_M at 1, lift at 1.
    destruct (Dimmer.__init__ pwmout gamma_entry (hw w)) as [[d h1]|] eqn:Einit;
      [|discriminate Einit].
    cbn [heap hw].
    destruct (set_strobe_runs (cfg_strobe c) (Dimmer.set_dim (cfg_dim c) d) h1)
      as (d' & h2 & Eset).
    unfold sbind at 1, of_M at 1, lift at 1. cbn [heap hw]. rewrite Eset.
    exists (State.add_effect (Effect.EDimmer d') s), h2.
    split; [reflexivity|]. split; [reflexivity|]. split; [reflexivity|].
    intros Hall. cbn [State.add_effect State.with_effects State.effects].
    apply Forall_app. split; [exact Hall|]. repeat constructor.
    eapply DR_set_strobe; [|exact Eset].
    apply DR_set_dim. eapply DR_init. exact Einit.
  - destruct (String.eqb (cfg_effect c) "flicker").
    + eexists. exists (hw w). split; [destruct w; reflexivity|].
      split; [reflexivity|]. split; [reflexivity|].
      intros Hall. cbn [State.add_effect State.with_effects State.effects].
      apply Forall_app. split; [exact Hall|]. repeat constructor.
      econstructor. apply FR_set_dim, FR_init.
    + exists s, (hw w). split; [destruct w; reflexivity|]. auto.
Qed.

Lemma new_fresh (obj : ActorState) (w : World) :
  exists r,
    new obj w = Ok (r, mkWorld (hw w) (<[r := obj]> (heap w))) /\
    heap w !! r = None.
Proof.
  exists (fresh (dom (heap w))). split; [reflexivity|].
  apply not_elem_of_dom. apply is_fresh.
Qed.

Lemma add_state_runs (r : nat) (obj : ActorState) (m : StateMachine.t)
    (h : Hw) (hp : gmap nat ActorState) :
  StateMachine.add_state r m (mkWorld h (<[r := obj]> hp))
  = Ok (StateMachine.mk (StateMachine.state m)
          (<[name obj := r]> (StateMachine.states m)),
        mkWorld h (<[r := obj]> hp)).
Proof.
  unfold StateMachine.add_state, bind, deref. cbn [heap].
  rewrite lookup_insert_eq. reflexivity.
Qed.

(** One step of the start-up sequence. *)
Ltac startup_step E :=
  unfold sbind at 1; try unfold of_M at 1; rewrite E; cbv beta iota.

(** Start-up either stops at the triggered section's ['effect1.strobe'] or
    returns a machine the main loop can run. *)
Lemma startup_cases (ambient_audio_exists : bool) (toml : Toml)
    (gamma_entry : Z -> Z) (w0 : World) :
  heap w0 = ∅ ->
  (exists t, toml "triggered" = inr t /\ In "effect1.strobe" (keys t) /\
             startup ambient_audio_exists toml gamma_entry w0
             = Failed (NameError "output1_confic")) \/
  ((forall t, toml "triggered" = inr t -> ~ In "effect1.strobe" (keys t)) /\
   exists m w r,
     startup ambient_audio_exists toml gamma_entry w0 = Started (m, w) /\
     loop_ok m w /\
     StateMachine.state m = Some r /\
     StateMachine.states m !! "ambient" = Some r).
Proof.
  intros Hempty.
  set (s0 := if ambient_audio_exists
             then State.set_wave AMBIENT_FILE (State.set_i2s i2s State.__init__)
             else State.__init__).
  assert (Hs0 : playback_bound (Ambient s0) /\ State.effects s0 = []).
  { subst s0. destruct ambient_audio_exists; simpl; split; eauto.
    intros [? H]; discriminate. }
  set (t0 := State.set_wave TRIGGER_FILE (State.set_i2s i2s State.__init__)).
  destruct (read_ambient_ok toml w0) as (cs & h1 & E1).
  destruct (add_configured_effect_ok gamma_entry output1 (fst cs) s0
              (mkWorld h1 (heap w0))) as (s1 & h2 & E2 & Hi1 & Hw1 & Hr1).
  cbn [heap] in E2.
  destruct (add_configured_effect_ok gamma_entry output2 (snd cs) s1
              (mkWorld h2 (heap w0))) as (s2 & h3 & E3 & Hi2 & Hw2 & Hr2).
  cbn [heap] in E3.
  destruct (new_fresh (Ambient s2) (mkWorld h3 (heap w0))) as (r0 & E4 & _).
  cbn [heap hw] in E4.
  pose proof (add_state_runs r0 (Ambient s2) StateMachine.__init__ h3 (heap w0))
    as E4'.
  cbn [name StateMachine.state StateMachine.states StateMachine.__init__] in E4'.
  set (w1 := mkWorld h3 (<[r0 := Ambient s2]> (heap w0))) in *.
  assert (Hprefix : forall k : StateMachine.t -> SM StateMachine.t,
            startup ambient_audio_exists toml gamma_entry w0
            = (cs' <~ read_triggered toml ;;
               t1 <~ add_configured_effect gamma_entry output1 (fst cs') t0 ;;
               t2 <~ add_configured_effect gamma_entry output2 (snd cs') t1 ;;
               r <~ of_M (new (Triggered t2 0%Q)) ;;
               m <~ of_M (StateMachine.add_state r
                            (StateMachine.mk None (<["ambient" := r0]> ∅))) ;;
               m <~ of_M (StateMachine.go_to_state "ambient" m) ;;
               _ <~ print "" ;;
               _ <~ print "Electronic Actor Enhancement Controller" ;;
               _ <~ print ("Settings from config file: " ++ CONFIG_FILE) ;;
               sret m) w1).
  { intros _. unfold startup. cbv zeta. fold s0. fold t0.
    startup_step E1. startup_step E2. startup_step E3.
    startup_step E4. fold w1. startup_step E4'. reflexivity. }
  specialize (Hprefix sret). rewrite Hprefix. clear Hprefix.
  destruct (read_triggered_cases toml w1)
    as [(t & Ht & Hin & E5)|(Hnin & cs' & h4 & E5)].
  { left. exists t. split; [exact Ht|]. split; [exact Hin|].
    unfold sbind at 1. rewrite E5. reflexivity. }
  right. split; [exact Hnin|].
  destruct (add_configured_effect_ok gamma_entry output1 (fst cs') t0
              (mkWorld h4 (heap w1))) as (t1 & h5 & E6 & Hj1 & Hv1 & Hq1).
  destruct (add_configured_effect_ok gamma_entry output2 (snd cs') t1
              (mkWorld h5 (heap w1))) as (t2 & h6 & E7 & Hj2 & Hv2 & Hq2).
  cbn [heap] in E7.
  destruct (new_fresh (Triggered t2 0%Q) (mkWorld h6 (heap w1)))
    as (r1 & E8 & Hfresh).
  cbn [heap hw] in E8.
  pose proof (add_state_runs r1 (Triggered t2 0%Q)
                (StateMachine.mk None (<["ambient" := r0]> ∅)) h6 (heap w1))
    as E8'.
  cbn [name StateMachine.state StateMachine.states] in E8'.
  subst w1. cbn [heap] in *.
  assert (Hne : r0 <> r1).
  { intros <-. rewrite lookup_insert_eq in Hfresh. discriminate. }
  set (m2 := StateMachine.mk None
               (<["triggered" := r1]> (<["ambient" := r0]> ∅))) in *.
  set (w2 := mkWorld h6
               (<[r1 := Triggered t2 0%Q]> (<[r0 := Ambient s2]> (heap w0))))
    in *.
  assert (Hok : loop_ok m2 w2).
  { subst m2 w2. rewrite Hempty.
    split; [|split; [|split; [|split]]];
      cbn [heap StateMachine.state StateMachine.states].
    - intros r obj Hr. apply lookup_insert_Some in Hr as [[_ <-]|[_ Hr]].
      + split.
        * simpl. rewrite Hj2, Hj1. subst t0. simpl. eauto.
        * cbn [fields]. apply Hq2, Hq1. subst t0. constructor.
      + apply lookup_insert_Some in Hr as [[_ <-]|[_ Hr]].
        * split.
          -- destruct Hs0 as [Hb _]. simpl in *. rewrite Hw2, Hw1, Hi2, Hi1.
             exact Hb.
          -- cbn [fields]. apply Hr2, Hr1. rewrite (proj2 Hs0). constructor.
        * rewrite lookup_empty in Hr. discriminate.
    - intros key r Hr. apply lookup_insert_Some in Hr as [[_ <-]|[_ Hr]].
      + rewrite lookup_insert_eq. eauto.
      + apply lookup_insert_Some in Hr as [[_ <-]|[_ Hr]].
        * rewrite lookup_insert_ne by congruence.
          rewrite lookup_insert_eq. eauto.
        * rewrite lookup_empty in Hr. discriminate.
    - discriminate.
    - rewrite lookup_insert_ne by discriminate.
      rewrite lookup_insert_eq. eauto.
    - rewrite lookup_insert_eq. eauto. }
  assert (Hamb : StateMachine.states m2 !! "ambient" = Some r0).
  { subst m2. cbn [StateMachine.states].
    rewrite lookup_insert_ne by discriminate. apply lookup_insert_eq. }
  destruct (go_to_state_keeps_loop_ok m2 w2 "ambient" r0 Hok Hamb)
    as (w3 & E9 & Hok3).
  startup_step E5. startup_step E6. startup_step E7.
  startup_step E8. fold w2. startup_step E8'. startup_step E9.
  do 3 eexists. split; [reflexivity|].
  split; [|split; [reflexivity|exact Hamb]].
  destruct Hok3 as (Hheap & Hrefs & Hact & Ha & Ht).
  split; [|split; [|split; [exact Hact|split; assumption]]]; cbn [heap].
  - exact Hheap.
  - exact Hrefs.
Qed.

(** X10: a configuration whose 'triggered' table has the key
    'effect1.strobe' stops start-up with [NameError]: that branch assigns
    into the unbound name [output1_confic], and [except OSError] does not
    catch it.  The 'ambient' section reads the same key into the first
    output's strobe. *)
Theorem startup_stops_at_triggered_strobe (ambient_audio_exists : bool)
    (toml : Toml) (gamma_entry : Z -> Z) (w0 : World) (t : Subtable) :
  heap w0 = ∅ ->
  toml "triggered" = inr t ->
  In "effect1.strobe" (keys t) ->
  startup ambient_audio_exists toml gamma_entry w0
  = Failed (NameError "output1_confic") /\
  forall (t' : Subtable) (c1 c2 : EffectConfig),
    read_key_ambient t' "effect1.strobe" (c1, c2)
    = (mkConfig (cfg_effect c1) (cfg_dim c1)
         (fetch_int t' "effect1.strobe") (cfg_seed c1), c2).
Proof.
  intros Hempty Ht Hin. split; [|reflexivity].
  destruct (startup_cases ambient_audio_exists toml gamma_entry w0 Hempty)
    as [(t' & _ & _ & E)|(Hnin & _)].
  - exact E.
  - exfalso. exact (Hnin t Ht Hin).
Qed.

Lemma startup_stops_at_triggered_strobe_witness :
  startup true strobe_toml upscale (mkWorld idle_hw ∅)
  = Failed (NameError "output1_confic").
Proof.
  apply (startup_stops_at_triggered_strobe true strobe_toml upscale
           (mkWorld idle_hw ∅)
           (mkSubtable ["effect1.strobe"] (fun _ => "") (fun _ => 10))
           eq_refl eq_refl).
  left. reflexivity.
Defined.

(** X11: with any other configuration, readable or not, start-up returns:
    the ambient state is active and registered, and the machine it built
    runs the main loop for any number of iterations without a fault,
    whatever the trigger, the audio driver and the clock report. *)
Theorem startup_builds_a_running_machine (ambient_audio_exists : bool)
    (toml : Toml) (gamma_entry : Z -> Z) (w0 : World) :
  heap w0 = ∅ ->
  (forall t, toml "triggered" = inr t -> ~ In "effect1.strobe" (keys t)) ->
  exists m w r,
    startup ambient_audio_exists toml gamma_entry w0 = Started (m, w) /\
    StateMachine.state m = Some r /\
    StateMachine.states m !! "ambient" = Some r /\
    is_Some (StateMachine.states m !! "triggered") /\
    forall inputs : list Inputs,
      exists m' w', main_loop inputs m w = Ok (m', w').
Proof.
  intros Hempty Hnin.
  destruct (startup_cases ambient_audio_exists toml gamma_entry w0 Hempty)
    as [(t & Ht & Hin & _)|(_ & m & w & r & E & Hok & Hst & Hamb)].
  - exfalso. exact (Hnin t Ht Hin).
  - exists m, w, r. split; [exact E|]. split; [exact Hst|].
    split; [exact Hamb|]. split; [apply Hok|].
    intros inputs.
    destruct (main_loop_keeps_loop_ok m w inputs Hok) as (m' & w' & Hrun & _).
    eauto.
Qed.

Lemma sample_toml_has_no_triggered_strobe :
  forall t, sample_toml "triggered" = inr t -> ~ In "effect1.strobe" (keys t).
Proof. intros t Ht. injection Ht as <-. simpl. tauto. Qed.

Lemma startup_builds_a_running_machine_witness :
  exists m w r,
    startup true sample_toml upscale (mkWorld idle_hw ∅) = Started (m, w) /\
    StateMachine.state m = Some r /\
    StateMachine.states m !! "ambient" = Some r.
Proof.
  destruct (startup_builds_a_running_machine true sample_toml upscale
              (mkWorld idle_hw ∅) eq_refl sample_toml_has_no_triggered_strobe)
    as (m & w & r & E & Hst & Hamb & _).
  exists m, w, r. auto.
Defined.

(** X12: when the configuration cannot be read, each section logs it and
    start-up goes on with the defaults: each state owns two dimmers, on
    output 1 and output 2, at intensity 0 without strobe; every write to a
    PWM sink during start-up is 0; the ambient state is entered, its loop
    started if the ambient clip exists. *)
Theorem startup_without_configuration (ambient_audio_exists : bool)
    (toml : Toml) (gamma_entry : Z -> Z) (h0 : Hw) (msg_a msg_t : string) :
  toml "ambient" = inl msg_a ->
  toml "triggered" = inl msg_t ->
  trace h0 = [] ->
  exists w,
    startup ambient_audio_exists toml gamma_entry (mkWorld h0 ∅)
    = Started (StateMachine.mk (Some 0%nat) stage_states, w) /\
    heap w
    = <[1%nat :=
          Triggered
            (State.mk [Effect.EDimmer (dark_dimmer gamma_entry output1 (Some 0));
                       Effect.EDimmer (dark_dimmer gamma_entry output2 (Some 0))]
               (Some i2s) (Some TRIGGER_FILE)) 0%Q]>
        (<[0%nat :=
             Ambient
               (State.mk [Effect.EDimmer (dark_dimmer gamma_entry output1 None);
                          Effect.EDimmer (dark_dimmer gamma_entry output2 None)]
                  (if ambient_audio_exists then Some i2s else None)
                  (if ambient_audio_exists then Some AMBIENT_FILE else None))]>
           ∅) /\
    trace (hw w)
    = [Stdout ("Application configuration not found: " ++ msg_a);
       PwmWrite output1 0; PwmWrite output2 0;
       Stdout ("Application configuration not found: " ++ msg_t);
       PwmWrite output1 0; PwmWrite output2 0;
       Stdout "Entering ambient"]
      ++ (if ambient_audio_exists
          then [I2sPlay i2s (Some AMBIENT_FILE) true] else [])
      ++ [Stdout ""; Stdout "Electronic Actor Enhancement Controller";
          Stdout "Settings from config file: /sd/config.toml"].
Proof.
  intros Ha Ht Htrace.
  unfold startup, read_ambient, read_triggered. rewrite Ha, Ht.
  destruct h0 as [tr nr mns sr ms pl fl]. simpl in Htrace. subst tr.
  destruct ambient_audio_exists.
  - eexists. split; [vm_compute; reflexivity|].
    split; vm_compute; reflexivity.
  - eexists. split; [vm_compute; reflexivity|].
    split; vm_compute; reflexivity.
Qed.

Lemma startup_without_configuration_witness :
  exists w,
    startup false (fun _ => inl "[Errno 2] ENOENT") upscale
      (mkWorld idle_hw ∅)
    = Started (StateMachine.mk (Some 0%nat) stage_states, w).
Proof.
  destruct (startup_without_configuration false
              (fun _ => inl "[Errno 2] ENOENT") upscale idle_hw
              "[Errno 2] ENOENT" "[Errno 2] ENOENT" eq_refl eq_refl eq_refl)
    as (w & E & _).
  exists w. exact E.
Defined.

(** ** The flicker's rate *)

Lemma Flicker_update_gate (f : Flicker.t) (now : Z) (hw : Hw) :
  1 <= Flicker.dim f <= 5 ->
  exists f1 v,
    1 <= Flicker.dim f1 <= 5 /\
    Flicker.update (Some now) f hw
    = (if now >=? Flicker.last_flicker f + 33333333
       then Ok ((f1, v), appended [PwmWrite (Flicker.pwmout f) v] hw)
       else Ok ((f, Flicker.duty_cycle f), hw)) /\
    Flicker.last_flicker f1 = now.
Proof.
  intros Hdim. unfold Flicker.update. run.
  destruct (Z.eqb_spec (Flicker.dim f) 0) as [Hz|_]; [lia|]. run.
  destruct (Z.ltb_spec (6 - Flicker.dim f) 0) as [Hlt|_]; [lia|]. run.
  do 2 eexists. split; [|split].
  2: destruct (now >=? _); reflexivity.
  all: simpl; auto.
Qed.

(** X13: a lit Flicker renders at most once per 33,333,333 ns: over any
    series of updates each call writes at most once, and the calls that
    write are at least that period apart, the first at least that long
    after [last_flicker]. *)
Theorem Flicker_renders_at_most_30_Hz (f : Flicker.t) (nows : list Z)
    (hw : Hw) :
  1 <= Flicker.dim f <= 5 ->
  exists ts f' hw',
    flicker_run nows f hw = Ok (ts, f', hw') /\
    spaced_from (Flicker.last_flicker f) 33333333 ts /\
    length (trace hw') = (length (trace hw) + length ts)%nat.
Proof.
  revert f hw. induction nows as [|now rest IH]; intros f hw Hdim.
  - exists [], f, hw. simpl. split; [reflexivity|]. split; [exact I|lia].
  - simpl flicker_run.
    destruct (Flicker_update_gate f now hw Hdim) as (f1 & v & Hdim1 & -> & Hlast).
    destruct (Z.geb_spec now (Flicker.last_flicker f + 33333333)) as [Hge|Hlt].
    + cbn [fst].
      destruct (IH f1 (appended [PwmWrite (Flicker.pwmout f) v] hw) Hdim1)
        as (ts & f' & hw' & -> & Hsp & Hlen).
      exists (now :: ts), f', hw'.
      cbn [trace appended] in *. rewrite length_app in *. cbn [length] in *.
      replace (length (trace hw) + 1 =? length (trace hw))%nat with false
        by (symmetry; apply Nat.eqb_neq; lia).
      cbn [negb]. split; [reflexivity|].
      split; [|lia]. rewrite Hlast in Hsp. split; [lia|exact Hsp].
    + cbn [fst].
      destruct (IH f hw Hdim) as (ts & f' & hw' & -> & Hsp & Hlen).
      exists ts, f', hw'. rewrite Nat.eqb_refl. cbn [negb]. auto.
Qed.

Lemma Flicker_renders_at_most_30_Hz_witness :
  1 <= Flicker.dim flicker_lit <= 5 /\
  exists ts f' hw',
    flicker_run [40000000; 66666666; 70000000; 100000000] flicker_lit idle_hw
    = Ok (ts, f', hw') /\
    spaced_from 33333333 33333333 ts.
Proof.
  split; [simpl; lia|].
  destruct (Flicker_renders_at_most_30_Hz flicker_lit
              [40000000; 66666666; 70000000; 100000000] idle_hw
              ltac:(simpl; lia))
    as (ts & f' & hw' & Hrun & Hsp & _).
  exists ts, f', hw'. split; [exact Hrun|exact Hsp].
Defined.

(** ** The strobe's period *)

(** X14: given any integer, on single-precision floats (binary32, with
    or without the two low bits of a stored significand dropped) and on
    doubles, the strobe setter either switches the strobe off (an argument
    of 0 or less: strobe 0, the period left as it was) or stores a half
    period between 357,142 ns (the 1400 Hz the setter clamps to) and
    500,000,000 ns (1 Hz). *)
Theorem Dimmer_strobe_period_bounds (frequency : Z) (d : Dimmer.t) (hw : Hw) :
  float hw = Float.single \/ float hw = Float.single30
  \/ float hw = Float.double ->
  exists d' hw',
    Dimmer.set_strobe frequency d hw = Ok (d', hw') /\
    (frequency <= 0 ->
     Dimmer.strobe d' = 0 /\
     Dimmer.transition_period d' = Dimmer.transition_period d) /\
    (frequency > 0 ->
     Dimmer.strobe d' > 0 /\
     357142 <= Dimmer.transition_period d' <= 500000000).
Proof.
  intros Hfmt.
  destruct (set_strobe_result frequency d hw)
    as (d' & hw' & Hset & Hs & _ & _ & Hper & Hkeep).
  exists d', hw'. split; [exact Hset|]. split.
  - intros Hle. assert (H0 : Dimmer.strobe d' = 0) by lia.
    split; [exact H0|apply Hkeep, H0].
  - intros Hpos. assert (Hf : 1 <= Dimmer.strobe d' <= 1400) by lia.
    split; [lia|]. rewrite Hper by lia.
    destruct Hfmt as [->|[->| ->]].
    + apply half_period_single_bounds, Hf.
    + apply half_period_single_bounds, Hf.
    + rewrite half_period_double by exact Hf.
      split.
      * apply Z.div_le_lower_bound; lia.
      * apply Z.div_le_upper_bound; lia.
Qed.

Lemma Dimmer_strobe_period_bounds_witness :
  (float idle_hw = Float.single \/ float idle_hw = Float.single30
   \/ float idle_hw = Float.double) /\
  exists d' hw',
    Dimmer.set_strobe 7 dimmer_steady idle_hw = Ok (d', hw') /\
    (7 <= 0 ->
     Dimmer.strobe d' = 0 /\
     Dimmer.transition_period d' = Dimmer.transition_period dimmer_steady) /\
    (7 > 0 ->
     Dimmer.strobe d' > 0 /\
     357142 <= Dimmer.transition_period d' <= 500000000).
Proof.
  split; [right; left; reflexivity|].
  apply (Dimmer_strobe_period_bounds 7 dimmer_steady idle_hw).
  right. left. reflexivity.
Defined.
